(** * Load-balancing metrics exporter: dispatch pipeline

    A shallow embedding of
    [exporter/loadbalancingexporter/metrics_exporter.go] and the properties of
    its routing-identifier extraction, per-batch dispatch, error aggregation,
    construction and shutdown.

    Conventions.
    - A Go [error] interface value is an [option error]: [None] is [nil].
    - A Go [(T, error)] result is a sum [T + error].
    - The collaborators the file only calls (the load balancer, the backend
      exporters, the clock, the stats recorder) act on an abstract world [W];
      every call the source makes on them is written in the order the source
      makes it, and leaves an [Event] in the log of the computation. *)

From Stdlib Require Import ZArith Lia.
From stdpp Require Import base option list strings gmap sets.

(** ** Errors *)

(** [errors.New] and [fmt.Errorf] give an error that carries its message;
    [go.uber.org/multierr] gives an error that carries a list of errors. *)
#[warnings="-register-all"]
Inductive error : Type :=
| errorString (msg : string)
| multiError (errs : list error).

Module errors.
Definition New (msg : string) : error := errorString msg.
End errors.

(** [go.uber.org/multierr] (an external library): [Append] returns the other
    operand when one is [nil], and otherwise one error that holds the errors
    of both, a [multiError] operand contributing the errors it holds. *)
Module multierr.
Definition flatten (e : error) : list error :=
  match e with
  | multiError es => es
  | errorString _ => [e]
  end.

Definition Append (left right : option error) : option error :=
  match left, right with
  | None, _ => right
  | _, None => left
  | Some l, Some r => Some (multiError (flatten l ++ flatten r))
  end.

(** [multierr.Errors]: the errors an error value stands for. *)
Definition Errors (e : option error) : list error :=
  match e with
  | None => []
  | Some e => flatten e
  end.
End multierr.

(** ** The metrics payload ([pdata]) *)

Module pcommon.
(** [pcommon.Value]: a tagged union; only the string case carries a string,
    [Str] is the empty string on every other case. *)
Inductive Value : Type :=
| ValueTypeEmpty
| ValueTypeStr (s : string)
| ValueTypeInt (i : Z)
| ValueTypeBool (b : bool).

Definition Str (v : Value) : string :=
  match v with
  | ValueTypeStr s => s
  | _ => ""
  end.

(** [pcommon.Map] is a slice of key/value pairs; [Get] returns the first
    pair with the key. *)
Definition Map := list (string * Value).

Fixpoint Get (m : Map) (key : string) : option Value :=
  match m with
  | [] => None
  | (k, v) :: rest => if decide (k = key) then Some v else Get rest key
  end.
End pcommon.

Module pmetric.
Record metric := { Name : string }.
Record scopeMetrics := { Metrics : list metric }.
Record resource := { Attributes : pcommon.Map }.
Record resourceMetrics :=
  { Resource : resource; ScopeMetrics : list scopeMetrics }.
(** [pmetric.Metrics], the payload and also each sub-batch. *)
Record metrics := { ResourceMetrics : list resourceMetrics }.
End pmetric.
Import pmetric.

(** ** Routing keys *)

(** Modelled from the spec: the [routingKey] enumeration is declared in
    [config.go], which is absent; the spec's RoutingMode has the two values
    [Default] and [ByServiceName], which the code names [traceIDRouting] and
    [svcRouting]. *)
Inductive routingKey : Type :=
| traceIDRouting
| svcRouting.

#[global] Instance routingKey_eq_dec : EqDecision routingKey.
Proof. solve_decision. Defined.

(** ** [routingIdentifiersFromMetrics] *)

Definition errEmptyResourceMetrics : error := errors.New "empty resource metrics".
Definition errEmptyScopeMetrics : error := errors.New "empty scope metrics".
Definition errEmptyMetrics : error := errors.New "empty metrics".
Definition errNoServiceName : error := errors.New "unable to get metric name".

(** The two [fmt.Errorf] of the file: [%T] prints the type of the component,
    [%s] the routing key. *)
Definition errUnexpectedType (typeName : string) : error :=
  errorString
    ("unable to export metrics, unexpected exporter type: expected exporter.Metrics but got "
       +:+ typeName).

Definition errUnsupportedRoutingKey (key : string) : error :=
  errorString ("unsupported routing_key: " +:+ key).

(** The loop [for i := 0; i < rs.Len(); i++] of the [svcRouting] branch, on
    the resources still to visit and the identifiers collected so far. *)
Fixpoint serviceNameIds (rs : list resourceMetrics) (ids : gmap string bool)
  : gmap string bool + error :=
  match rs with
  | [] => inl ids
  | r :: rest =>
      match pcommon.Get (Attributes (Resource r)) "service.name" with
      | None => inr errNoServiceName
      | Some svc => serviceNameIds rest (<[pcommon.Str svc := true]> ids)
      end
  end.

Definition routingIdentifiersFromMetrics (md : metrics) (key : routingKey)
  : gmap string bool + error :=
  let ids : gmap string bool := ∅ in
  let rs := ResourceMetrics md in
  match rs with
  | [] => inr errEmptyResourceMetrics
  | rs0 :: _ =>
      let ils := ScopeMetrics rs0 in
      match ils with
      | [] => inr errEmptyScopeMetrics
      | ils0 :: _ =>
          let metrics := Metrics ils0 in
          match metrics with
          | [] => inr errEmptyMetrics
          | metrics0 :: _ =>
              if decide (key = svcRouting) then serviceNameIds rs ids
              else
                let tid := Name metrics0 in
                inl (<[tid := true]> ids)
          end
      end
  end.

(** ** Collaborators *)

(** [component.Component] as [loadBalancer.Exporter] returns it: either it
    implements [exporter.Metrics], or it is of some other type, whose name
    [%T] prints. *)
Inductive component (H : Type) : Type :=
| exporterMetrics (te : H)
| otherComponent (typeName : string).
Arguments exporterMetrics {H} te.
Arguments otherComponent {H} typeName.

(** What a call on a collaborator leaves in the log: the call, its arguments
    and what it returned. *)
Inductive Event (H : Type) : Type :=
| EvEndpoint (rid endpoint : string)
    (* endpoint := loadBalancer.Endpoint([]byte(rid)) *)
| EvExporter (endpoint : string) (r : component H + error)
    (* exp, err = loadBalancer.Exporter(endpoint) *)
| EvForward (endpoint : string) (te : H) (md : metrics) (err : option error)
    (* err = te.ConsumeMetrics(ctx, md), te resolved for [endpoint] *)
| EvRecord (endpoint : string) (success : bool) (millis : Z).
    (* stats.RecordWithTags: the endpoint tag, the success tag, the sample *)
Arguments EvEndpoint {H} rid endpoint.
Arguments EvExporter {H} endpoint r.
Arguments EvForward {H} endpoint te md err.
Arguments EvRecord {H} endpoint success millis.

(** The exporter. The [sync.WaitGroup] is its counter: [Add] and [Done]
    change it, [Wait] returns once it is zero. The field [routingKey] of the
    source is [routingKey_] here, [routingKey] being the name of its type. *)
Record metricExporterImp (LB : Type) : Type := {
  loadBalancer : LB;
  routingKey_ : routingKey;
  stopped : bool;
  shutdownWg : Z
}.
Arguments loadBalancer {LB} _.
Arguments routingKey_ {LB} _.
Arguments stopped {LB} _.
Arguments shutdownWg {LB} _.

(** [Config]: the routing key option, and the settings (protocol, resolver)
    that only the load balancer reads. *)
Record Config (S : Type) : Type := {
  RoutingKey : string;
  settings : S
}.
Arguments RoutingKey {S} _.
Arguments settings {S} _.

(** Program points of a [ConsumeMetrics] call and of a [Shutdown] call, for
    the interleavings of calls on one exporter. *)
Inductive consumePc : Type :=
| CEntry (md : metrics)
| CRange (errs : option error) (batches : list metrics)
| CReturned (ret : option error).

Inductive shutdownPc : Type :=
| SEntry
| SWait
| SReturned (ret : option error).

Inductive thread : Type :=
| TConsume
| TShutdown.

(** ** Vocabulary of the properties *)

(** The first metric of the first scope of the first resource group, when
    the three groups are there: what the three emptiness checks look for. *)
Definition firstMetric (md : metrics) : option metric :=
  rs0 ← head (ResourceMetrics md);
  ils0 ← head (ScopeMetrics rs0);
  head (Metrics ils0).

(** All scope-level groups and all metric entries of a payload. *)
Definition scopeGroups (md : metrics) : list scopeMetrics :=
  r ← ResourceMetrics md; ScopeMetrics r.

Definition metricEntries (md : metrics) : list metric :=
  s ← scopeGroups md; Metrics s.

(** The [service.name] of a resource group, as a string, if it has one. *)
Definition serviceName (r : resourceMetrics) : option string :=
  pcommon.Str <$> pcommon.Get (Attributes (Resource r)) "service.name".

Definition isEmptinessError (err : error) : Prop :=
  err = errEmptyResourceMetrics ∨ err = errEmptyScopeMetrics ∨ err = errEmptyMetrics.

Section Logs.
Context {H : Type}.

(** The identifiers for which the endpoint was resolved, in order. *)
Definition visited (log : list (Event H)) : list string :=
  omap (λ ev, match ev with EvEndpoint rid _ => Some rid | _ => None end) log.

(** The forward calls: the endpoint and whether the call returned [nil]. *)
Definition forwards (log : list (Event H)) : list (string * bool) :=
  omap (λ ev, match ev with
              | EvForward endpoint _ _ err => Some (endpoint, bool_decide (err = None))
              | _ => None
              end) log.

(** The latency samples: the endpoint tag and the success tag. *)
Definition samples (log : list (Event H)) : list (string * bool) :=
  omap (λ ev, match ev with
              | EvRecord endpoint success _ => Some (endpoint, success)
              | _ => None
              end) log.

(** Every forward call is followed at once by one sample with its endpoint
    and its outcome, and there is no other sample. *)
Fixpoint sampledOnce (log : list (Event H)) : Prop :=
  match log with
  | [] => True
  | EvForward endpoint _ _ err :: rest =>
      match rest with
      | EvRecord endpoint' success _ :: rest' =>
          endpoint' = endpoint ∧ (success = true ↔ err = None) ∧ sampledOnce rest'
      | _ => False
      end
  | EvRecord _ _ _ :: _ => False
  | _ :: rest => sampledOnce rest
  end.

(** A resolution of the exporter that stops the dispatch: the load balancer
    has no exporter for the endpoint, or the exporter is not one of
    metrics; with the error [consumeMetric] returns for it. *)
Definition resolutionFailure (ev : Event H) : option error :=
  match ev with
  | EvExporter _ (inr err) => Some err
  | EvExporter _ (inl (otherComponent typeName)) =>
      Some (errUnexpectedType typeName)
  | _ => None
  end.

(** The error a forward call returned, or the one of a resolution that
    stops the dispatch. *)
Definition failure (ev : Event H) : option error :=
  match ev with
  | EvForward _ _ _ err => err
  | _ => resolutionFailure ev
  end.

(** The errors met along a log, in order. *)
Definition errorsMet (log : list (Event H)) : list error := omap failure log.

(** The error value the dispatch stands at after an event: a resolution
    and a forward call set it, a successful one to [nil]. *)
Definition outcome (err : option error) (ev : Event H) : option error :=
  match ev with
  | EvExporter _ (inl (exporterMetrics _)) => None
  | EvExporter _ _ => resolutionFailure ev
  | EvForward _ _ _ err' => err'
  | _ => err
  end.

(** The log of the dispatch of a sub-batch, identifier by identifier: the
    endpoint is resolved, then the exporter of that endpoint; a resolution
    that fails ends the log; otherwise the exporter found is called once, with
    the whole sub-batch, and one sample follows, with that endpoint and the
    outcome of the call. *)
Fixpoint dispatchShape (md : metrics) (log : list (Event H)) : Prop :=
  match log with
  | [] => True
  | EvEndpoint _ endpoint :: EvExporter endpoint' r :: rest =>
      endpoint' = endpoint ∧
      match r with
      | inl (exporterMetrics te) =>
          match rest with
          | EvForward endpoint1 te' md' err :: EvRecord endpoint2 success _ :: rest' =>
              endpoint1 = endpoint ∧ te' = te ∧ md' = md ∧
              endpoint2 = endpoint ∧ (success = true ↔ err = None) ∧
              dispatchShape md rest'
          | _ => False
          end
      | _ => rest = []
      end
  | _ => False
  end.

(** Fail-fast on every kind of failure: after an event that failed no
    further identifier is taken up and nothing more is forwarded. *)
Definition abortsOnFirstFailure (log : list (Event H)) : Prop :=
  ∀ l1 ev l2, log = l1 ++ ev :: l2 → is_Some (failure ev) →
    visited l2 = [] ∧ forwards l2 = [].
End Logs.

(** ** A concrete world, for examples *)

(** Backends named after the identifier; the clock is the world. The exporter
    of ["backend-gone"] is missing, that of ["backend-traces"] is not a
    metrics exporter, the backend ["backend-a"] refuses every batch, and a
    forward call takes 2.5 ms. *)
Module Fixture.
Definition lb_Endpoint (_ : unit) (rid : string) (w : Z) : string * Z :=
  ("backend-" +:+ rid, w).

Definition lb_Exporter (_ : unit) (endpoint : string) (w : Z)
  : (component string + error) * Z :=
  (if decide (endpoint = "backend-gone") then
     inr (errorString "couldn't find the exporter for the endpoint")
   else if decide (endpoint = "backend-traces") then
     inl (otherComponent "*otlpexporter.tracesExporter")
   else inl (exporterMetrics endpoint),
   w).

Definition te_ConsumeMetrics (te : string) (_ : metrics) (w : Z)
  : option error * Z :=
  (if decide (te = "backend-a") then Some (errorString "connection refused")
   else None,
   (w + 2500000)%Z).

Definition clock (w : Z) : Z := w.

Definition rangeOrder (_ : Z) (ids : gmap string bool) : list string :=
  elements (dom ids).

(** One sub-batch for each resource group. *)
Definition SplitMetrics (md : metrics) : list metrics :=
  (λ r, {| ResourceMetrics := [r] |}) <$> ResourceMetrics md.

(** The settings say whether a resolver is configured. *)
Definition newLoadBalancer (_ : unit) (cfg : Config bool) : unit + error :=
  if settings cfg then inl tt else inr (errorString "no resolvers specified").

Definition cpu : metric := {| Name := "cpu" |}.
Definition mem : metric := {| Name := "mem" |}.

(** A resource group of a service, with one scope of two metrics. *)
Definition service (svc : string) : resourceMetrics :=
  {| Resource := {| Attributes := [("service.name", pcommon.ValueTypeStr svc)] |};
     ScopeMetrics := [ {| Metrics := [cpu; mem] |} ] |}.

(** A resource group with no [service.name]. *)
Definition anonymous : resourceMetrics :=
  {| Resource := {| Attributes := [("host.name", pcommon.ValueTypeStr "h1")] |};
     ScopeMetrics := [ {| Metrics := [cpu] |} ] |}.

(** A resource group whose first scope is empty and whose second is not. *)
Definition emptyFirstScope : resourceMetrics :=
  {| Resource := {| Attributes := [("service.name", pcommon.ValueTypeStr "a")] |};
     ScopeMetrics := [ {| Metrics := [] |}; {| Metrics := [cpu] |} ] |}.

Definition noScopes : resourceMetrics :=
  {| Resource := {| Attributes := [] |}; ScopeMetrics := [] |}.

Definition batch (rs : list resourceMetrics) : metrics :=
  {| ResourceMetrics := rs |}.

Definition exporterWith (key : routingKey) : metricExporterImp unit :=
  {| loadBalancer := tt; routingKey_ := key; stopped := false; shutdownWg := 0 |}.

(** Starting the load balancer takes a millisecond and succeeds. *)
Definition lb_Start (_ : unit) (w : Z) : option error * Z :=
  (None, (w + 1000000)%Z).
End Fixture.

(** ** Further vocabulary *)

(** [consumer.Capabilities]. *)
Record Capabilities : Type := { MutatesData : bool }.

Section MoreLogs.
Context {H : Type}.

(** The payloads of the forward calls, in order. *)
Definition forwarded (log : list (Event H)) : list metrics :=
  omap (λ ev, match ev with EvForward _ _ md _ => Some md | _ => None end) log.

(** The values of the latency samples, in milliseconds. *)
Definition sampleValues (log : list (Event H)) : list Z :=
  omap (λ ev, match ev with EvRecord _ _ millis => Some millis | _ => None end) log.
End MoreLogs.

(** ** The dispatcher *)

Section Dispatch.
(** The world of the collaborators, the load balancer, the backend exporter
    handles, the settings of the configuration and of the factory. *)
Context {W LB H S CreateSettings : Type}.

(** [loadBalancer.Endpoint], on the bytes of the identifier, which are the
    string itself, and [loadBalancer.Exporter]. *)
Variable lb_Endpoint : LB → string → W → string * W.
Variable lb_Exporter : LB → string → W → (component H + error) * W.
(** [exporter.Metrics.ConsumeMetrics] of a backend exporter. *)
Variable te_ConsumeMetrics : H → metrics → W → option error * W.
(** The clock [time.Now] reads, in nanoseconds. *)
Variable clock : W → Z.
(** The order in which [range] visits the keys of a map: Go leaves it
    unspecified, and every key is visited once. *)
Variable rangeOrder : W → gmap string bool → list string.
Hypothesis rangeOrder_keys :
  ∀ w (ids : gmap string bool), rangeOrder w ids ≡ₚ elements (dom ids).
(** [batchpersignal.SplitMetrics]. *)
Variable SplitMetrics : metrics → list metrics.
(** [newLoadBalancer], of [loadbalancer.go]. *)
Variable newLoadBalancer : CreateSettings → Config S → LB + error.

(** A computation reads and changes the world and emits events. *)
Definition M (A : Type) : Type := W → A * W * list (Event H).

Definition ret {A} (a : A) : M A := λ w, (a, w, []).

Definition bind {A B} (m : M A) (f : A → M B) : M B :=
  λ w, let '(a, w1, l1) := m w in
       let '(b, w2, l2) := f a w1 in
       (b, w2, l1 ++ l2).

Definition call {A} (ev : A → Event H) (op : W → A * W) : M A :=
  λ w, let '(a, w1) := op w in (a, w1, [ev a]).

Definition read {A} (f : W → A) : M A := λ w, (f w, w, []).

Definition emit (ev : Event H) : M unit := λ w, (tt, w, [ev]).

Definition result {A} (x : A * W * list (Event H)) : A := x.1.1.
Definition world {A} (x : A * W * list (Event H)) : W := x.1.2.
Definition events {A} (x : A * W * list (Event H)) : list (Event H) := x.2.

Notation "'let*' x ':=' m 'in' k" := (bind m (λ x, k))
  (at level 10, x name, m at level 100, k at level 200).

(** [time.Duration.Milliseconds]: nanoseconds over 10^6, truncated. *)
Definition Milliseconds (d : Z) : Z := (d ÷ 1000000)%Z.

(** *** [newMetricsExporter] *)

Definition newMetricsExporter (params : CreateSettings) (cfg : Config S)
  : metricExporterImp LB + error :=
  match newLoadBalancer params cfg with
  | inr err => inr err
  | inl lb =>
      let metricExporter :=
        {| loadBalancer := lb; routingKey_ := traceIDRouting;
           stopped := false; shutdownWg := 0 |} in
      if decide (RoutingKey cfg = "service") then
        inl {| loadBalancer := loadBalancer metricExporter;
               routingKey_ := svcRouting;
               stopped := stopped metricExporter;
               shutdownWg := shutdownWg metricExporter |}
      else if decide (RoutingKey cfg = "_metric_ID" ∨ RoutingKey cfg = "") then
        inl metricExporter
      else
        inr (errUnsupportedRoutingKey (RoutingKey cfg))
  end.

(** *** [consumeMetric] *)

(** The loop [for rid := range routingIds], on the keys still to visit and
    the current value of the variable [err]; running out of keys reaches the
    [return err] after the loop. *)
Fixpoint consumeMetricRange (e : metricExporterImp LB) (md : metrics)
    (rids : list string) (err : option error) : M (option error) :=
  match rids with
  | [] => ret err
  | rid :: rest =>
      let* endpoint := call (EvEndpoint rid) (lb_Endpoint (loadBalancer e) rid) in
      let* r := call (EvExporter endpoint) (lb_Exporter (loadBalancer e) endpoint) in
      match r with
      | inr err => ret (Some err)
      | inl (otherComponent typeName) => ret (Some (errUnexpectedType typeName))
      | inl (exporterMetrics te) =>
          let* start := read clock in
          let* err := call (EvForward endpoint te md) (te_ConsumeMetrics te md) in
          let* now := read clock in
          let duration := (now - start)%Z in
          let* _ :=
            if decide (err = None)
            then emit (EvRecord endpoint true (Milliseconds duration))
            else emit (EvRecord endpoint false (Milliseconds duration)) in
          consumeMetricRange e md rest err
      end
  end.

Definition consumeMetric (e : metricExporterImp LB) (md : metrics)
  : M (option error) :=
  match routingIdentifiersFromMetrics md (routingKey_ e) with
  | inr err => ret (Some err)
  | inl routingIds =>
      let* rids := read (λ w, rangeOrder w routingIds) in
      consumeMetricRange e md rids None
  end.

(** *** [ConsumeMetrics] *)

(** The loop [for _, batch := range batches]. *)
Fixpoint ConsumeMetricsRange (e : metricExporterImp LB)
    (batches : list metrics) (errs : option error) : M (option error) :=
  match batches with
  | [] => ret errs
  | batch :: rest =>
      let* err := consumeMetric e batch in
      ConsumeMetricsRange e rest (multierr.Append errs err)
  end.

Definition ConsumeMetrics (e : metricExporterImp LB) (md : metrics)
  : M (option error) :=
  let errs : option error := None in
  let batches := SplitMetrics md in
  ConsumeMetricsRange e batches errs.

(** The dispatch of each sub-batch in turn, whatever the earlier ones
    returned, with what each returned. *)
Fixpoint dispatchEach (e : metricExporterImp LB) (batches : list metrics)
  : M (list (option error)) :=
  match batches with
  | [] => ret []
  | batch :: rest =>
      let* err := consumeMetric e batch in
      let* errs := dispatchEach e rest in
      ret (err :: errs)
  end.

(** *** [Shutdown], and calls that interleave *)

(** [Shutdown] run on its own: it sets the stop flag, and returns [nil] with
    the exporter as it then is when the counter of the wait group is zero;
    otherwise [Wait] blocks and there is no result. *)
Definition Shutdown (e : metricExporterImp LB)
  : option (metricExporterImp LB * option error) :=
  let e := {| loadBalancer := loadBalancer e; routingKey_ := routingKey_ e;
              stopped := true; shutdownWg := shutdownWg e |} in
  if decide (shutdownWg e = 0%Z) then Some (e, None) else None.

(** One exporter, shared by a [ConsumeMetrics] call and a [Shutdown] call;
    each is at a program point. *)
Record system : Type := {
  exporter : metricExporterImp LB;
  theWorld : W;
  theLog : list (Event H);
  consumer : consumePc;
  closer : shutdownPc
}.

(** A step of the [ConsumeMetrics] call: entering the loop, one turn of the
    loop, or the return. *)
Definition consumeStep (s : system) : option system :=
  match consumer s with
  | CEntry md =>
      Some {| exporter := exporter s; theWorld := theWorld s;
              theLog := theLog s;
              consumer := CRange None (SplitMetrics md);
              closer := closer s |}
  | CRange errs (batch :: rest) =>
      let '(err, w, l) := consumeMetric (exporter s) batch (theWorld s) in
      Some {| exporter := exporter s; theWorld := w;
              theLog := theLog s ++ l;
              consumer := CRange (multierr.Append errs err) rest;
              closer := closer s |}
  | CRange errs [] =>
      Some {| exporter := exporter s; theWorld := theWorld s;
              theLog := theLog s;
              consumer := CReturned errs;
              closer := closer s |}
  | CReturned _ => None
  end.

(** A step of the [Shutdown] call: [e.stopped = true], then
    [e.shutdownWg.Wait()], which can only be taken when the counter is zero,
    followed by [return nil]. *)
Definition shutdownStep (s : system) : option system :=
  match closer s with
  | SEntry =>
      Some {| exporter :=
                {| loadBalancer := loadBalancer (exporter s);
                   routingKey_ := routingKey_ (exporter s);
                   stopped := true;
                   shutdownWg := shutdownWg (exporter s) |};
              theWorld := theWorld s; theLog := theLog s;
              consumer := consumer s; closer := SWait |}
  | SWait =>
      if decide (shutdownWg (exporter s) = 0%Z) then
        Some {| exporter := exporter s; theWorld := theWorld s;
                theLog := theLog s; consumer := consumer s;
                closer := SReturned None |}
      else None
  | SReturned _ => None
  end.

Definition step (t : thread) (s : system) : option system :=
  match t with
  | TConsume => consumeStep s
  | TShutdown => shutdownStep s
  end.

(** The system after a schedule, if every step of it could be taken. *)
Fixpoint run (schedule : list thread) (s : system) : option system :=
  match schedule with
  | [] => Some s
  | t :: rest => s' ← step t s; run rest s'
  end.

(** A [ConsumeMetrics] call is in flight from its entry to its return. *)
Definition inFlight (pc : consumePc) : Prop :=
  match pc with
  | CReturned _ => False
  | _ => True
  end.

(** *** [Capabilities] and [Start] *)

Definition Capabilities_ (e : metricExporterImp LB) : Capabilities :=
  {| MutatesData := false |}.

(** [loadBalancer.Start]. *)
Variable lb_Start : LB → W → option error * W.

Definition Start (e : metricExporterImp LB) (w : W) : option error * W :=
  lb_Start (loadBalancer e) w.



(** ** Properties of the extraction *)

Lemma firstMetric_Some (md : metrics) (m : metric) :
  firstMetric md = Some m ↔
  ∃ r rs s ss ms,
    ResourceMetrics md = r :: rs ∧ ScopeMetrics r = s :: ss ∧ Metrics s = m :: ms.
Proof.
  unfold firstMetric. split.
  - destruct (ResourceMetrics md) as [|r rs]; [done|]. simpl.
    destruct (ScopeMetrics r) as [|s ss] eqn:Hs; [done|]. simpl.
    destruct (Metrics s) as [|m' ms] eqn:Hm; [done|]. simpl.
    intros [= ->]. by exists r, rs, s, ss, ms.
  - intros (r & rs & s & ss & ms & -> & Hs & Hm). simpl.
    rewrite Hs. simpl. by rewrite Hm.
Qed.

(** Past the three emptiness checks the extraction is the branch of the
    routing key. *)
Lemma routingIdentifiers_checked (md : metrics) (key : routingKey) (m : metric) :
  firstMetric md = Some m →
  routingIdentifiersFromMetrics md key =
    if decide (key = svcRouting) then serviceNameIds (ResourceMetrics md) ∅
    else inl {[ Name m := true ]}.
Proof.
  intros (r & rs & s & ss & ms & Hr & Hs & Hm)%firstMetric_Some.
  unfold routingIdentifiersFromMetrics. rewrite Hr, Hs, Hm.
  destruct (decide (key = svcRouting)); [done|].
  by rewrite insert_empty.
Qed.

(** The extraction fails on an emptiness check exactly when there is no
    first metric. *)
Lemma routingIdentifiers_unchecked (md : metrics) (key : routingKey) :
  firstMetric md = None →
  ∃ err, isEmptinessError err ∧ routingIdentifiersFromMetrics md key = inr err.
Proof.
  unfold firstMetric, routingIdentifiersFromMetrics, isEmptinessError.
  destruct (ResourceMetrics md) as [|r rs]; simpl; [eauto 6|].
  destruct (ScopeMetrics r) as [|s ss]; simpl; [eauto 6|].
  destruct (Metrics s) as [|m ms]; simpl; [eauto 6|done].
Qed.

Lemma serviceNameIds_not_emptiness rs ids err :
  serviceNameIds rs ids = inr err → err = errNoServiceName.
Proof.
  revert ids. induction rs as [|r rs IH]; intros ids; simpl; [done|].
  destruct (pcommon.Get _ _); [apply IH|]. by intros [= <-].
Qed.

Lemma serviceNameIds_cons r rs (ids : gmap string bool) :
  serviceNameIds (r :: rs) ids =
    match serviceName r with
    | None => inr errNoServiceName
    | Some n => serviceNameIds rs (<[n := true]> ids)
    end.
Proof. unfold serviceName. simpl. by destruct (pcommon.Get _ _). Qed.

Lemma serviceNameIds_all rs (ids : gmap string bool) :
  Forall (λ r, is_Some (serviceName r)) rs →
  serviceNameIds rs ids =
    inl (gset_to_gmap true (list_to_set (omap serviceName rs)) ∪ ids).
Proof.
  intros Hall. revert ids.
  induction Hall as [|r rs [n Hn] _ IH]; intros ids.
  - simpl. f_equal. rewrite gset_to_gmap_empty. by rewrite (left_id_L ∅ (∪)).
  - rewrite serviceNameIds_cons. simpl. rewrite Hn, IH. f_equal.
    apply map_eq. intros i.
    rewrite !lookup_union, !lookup_gset_to_gmap.
    clear IH Hn.
    destruct (decide (i = n)) as [->|Hne].
    + rewrite lookup_insert_eq.
      repeat case_guard; simpl; try (by destruct (ids !! n)).
      all: exfalso;
        match goal with
        | Hn : ¬ _ |- _ => apply Hn, elem_of_list_to_set, elem_of_cons; by left
        end.
    + rewrite lookup_insert_ne by done.
      repeat case_guard; simpl; try done.
      all: exfalso;
        repeat match goal with
        | Hi : _ ∈ list_to_set _ |- _ => apply elem_of_list_to_set in Hi
        | Hi : ¬ _ ∈ list_to_set _ |- _ => rewrite elem_of_list_to_set in Hi
        | Hi : _ ∈ _ :: _ |- _ => apply elem_of_cons in Hi as [?|?]
        | Hi : ¬ _ ∈ _ :: _ |- _ => rewrite elem_of_cons in Hi
        end; tauto.
Qed.

Lemma serviceNameIds_missing rs (ids : gmap string bool) :
  Exists (λ r, serviceName r = None) rs →
  serviceNameIds rs ids = inr errNoServiceName.
Proof.
  intros Hex. revert ids.
  induction Hex as [r rs Hr|r rs _ IH]; intros ids;
    rewrite serviceNameIds_cons.
  - by rewrite Hr.
  - destruct (serviceName r); [apply IH|done].
Qed.

(** ** Properties of the dispatch loop *)

(** One turn of the loop of [consumeMetric], call by call. *)
Lemma consumeMetricRange_cons e md rid rest err w :
  consumeMetricRange e md (rid :: rest) err w =
    let '(endpoint, w1) := lb_Endpoint (loadBalancer e) rid w in
    let '(r, w2) := lb_Exporter (loadBalancer e) endpoint w1 in
    let resolved := [EvEndpoint rid endpoint; EvExporter endpoint r] in
    match r with
    | inr err' => (Some err', w2, resolved)
    | inl (otherComponent typeName) =>
        (Some (errUnexpectedType typeName), w2, resolved)
    | inl (exporterMetrics te) =>
        let '(err', w3) := te_ConsumeMetrics te md w2 in
        let millis := Milliseconds (clock w3 - clock w2) in
        let '(ret, w4, l) := consumeMetricRange e md rest err' w3 in
        (ret, w4,
         resolved ++ EvForward endpoint te md err'
           :: EvRecord endpoint (bool_decide (err' = None)) millis :: l)
    end.
Proof.
  simpl. unfold bind, call, read, emit, ret.
  destruct (lb_Endpoint _ _ _) as [endpoint w1].
  destruct (lb_Exporter _ _ _) as [[[te|typeName]|err'] w2]; try done.
  destruct (te_ConsumeMetrics _ _ _) as [err' w3].
  destruct (decide (err' = None)) as [->|Hne];
    destruct (consumeMetricRange _ _ _ _ _) as [[ret' w4] l]; simpl.
  - done.
  - by rewrite bool_decide_eq_false_2.
Qed.

(** Taking the loop turn by turn: the cases of one turn. *)
Ltac loop_turn :=
  rewrite consumeMetricRange_cons;
  destruct (lb_Endpoint _ _ _) as [?endpoint ?w];
  destruct (lb_Exporter _ _ _) as [[[?te|?typeName]|?err] ?w];
  [ destruct (te_ConsumeMetrics _ _ _) as [?err ?w];
    match goal with
    | IH : ∀ _ _, _ |- _ =>
        let a := fresh "err" in let b := fresh "w" in
        match goal with
        | |- context [consumeMetricRange ?e ?md ?rest ?a' ?b'] =>
            specialize (IH a' b');
            destruct (consumeMetricRange e md rest a' b') as [[?ret ?w] ?l]
        end
    end
  | | ];
  cbn [result world events fst snd] in *.

Lemma consumeMetricRange_shape e md rids err w :
  dispatchShape md (events (consumeMetricRange e md rids err w)).
Proof.
  revert err w. induction rids as [|rid rest IH]; intros err w; [done|].
  loop_turn; simpl; try done.
  repeat split; try done.
  - by intros ?%bool_decide_eq_true.
  - by intros ->.
Qed.

Lemma consumeMetricRange_sampledOnce e md rids err w :
  sampledOnce (events (consumeMetricRange e md rids err w)).
Proof.
  revert err w. induction rids as [|rid rest IH]; intros err w; [done|].
  loop_turn; simpl; try done.
  repeat split; try done.
  - by intros ?%bool_decide_eq_true.
  - by intros ->.
Qed.

Lemma consumeMetricRange_samples e md rids err w :
  samples (events (consumeMetricRange e md rids err w)) =
  forwards (events (consumeMetricRange e md rids err w)).
Proof.
  revert err w. induction rids as [|rid rest IH]; intros err w; [done|].
  loop_turn; simpl; try done.
  unfold samples, forwards in *. simpl. by rewrite IH.
Qed.

(** The loop returns the error value it stands at after its last call. *)
Lemma consumeMetricRange_outcome e md rids err w :
  result (consumeMetricRange e md rids err w) =
  foldl outcome err (events (consumeMetricRange e md rids err w)).
Proof.
  revert err w. induction rids as [|rid rest IH]; intros err w; [done|].
  loop_turn; simpl; try done.
Qed.

(** A resolution that fails is the last event, and its error is returned. *)
Lemma consumeMetricRange_resolution e md rids err w l1 ev l2 err' :
  events (consumeMetricRange e md rids err w) = l1 ++ ev :: l2 →
  resolutionFailure ev = Some err' →
  l2 = [] ∧ result (consumeMetricRange e md rids err w) = Some err'.
Proof.
  revert err w l1. induction rids as [|rid rest IH]; intros err w l1.
  { simpl. by destruct l1. }
  loop_turn; simpl; intros Hlog Hev.
  - destruct l1 as [|? [|? [|? [|? l1]]]]; simplify_eq/=.
    by eapply IH.
  - destruct l1 as [|? [|? l1]]; simplify_eq/=; [done|by destruct l1].
  - destruct l1 as [|? [|? l1]]; simplify_eq/=; [done|by destruct l1].
Qed.

(** Unless a resolution fails, every identifier is taken up, in the order
    of the range, and forwarded, whatever the forward calls return. *)
Lemma consumeMetricRange_visits_all e md rids err w :
  Forall (λ ev, resolutionFailure ev = None)
    (events (consumeMetricRange e md rids err w)) →
  visited (events (consumeMetricRange e md rids err w)) = rids ∧
  length (forwards (events (consumeMetricRange e md rids err w))) = length rids.
Proof.
  revert err w. induction rids as [|rid rest IH]; intros err w; [done|].
  loop_turn; simpl; intros Hall.
  - do 4 apply Forall_cons in Hall as [_ Hall].
    destruct (IH Hall) as [Hv Hf]. unfold visited, forwards in *. simpl.
    by rewrite Hv, Hf.
  - by apply Forall_cons in Hall as [_ [[=] _]%Forall_cons].
  - by apply Forall_cons in Hall as [_ [[=] _]%Forall_cons].
Qed.

(** The identifiers taken up are the first ones of the range. *)
Lemma consumeMetricRange_visited_prefix e md rids err w :
  visited (events (consumeMetricRange e md rids err w)) `prefix_of` rids.
Proof.
  revert err w. induction rids as [|rid rest IH]; intros err w; [done|].
  loop_turn; unfold visited in *; simpl.
  - by apply prefix_cons.
  - apply prefix_cons, prefix_nil.
  - apply prefix_cons, prefix_nil.
Qed.

(** ** Properties of [consumeMetric] *)

Lemma consumeMetric_extracted e md ids w :
  routingIdentifiersFromMetrics md (routingKey_ e) = inl ids →
  consumeMetric e md w = consumeMetricRange e md (rangeOrder w ids) None w.
Proof.
  intros Hids. unfold consumeMetric. rewrite Hids.
  unfold bind, read. by destruct (consumeMetricRange _ _ _ _ _) as [[??]?].
Qed.

Lemma consumeMetric_not_extracted e md err w :
  routingIdentifiersFromMetrics md (routingKey_ e) = inr err →
  consumeMetric e md w = (Some err, w, []).
Proof. intros Herr. unfold consumeMetric. by rewrite Herr. Qed.

(** What [consumeMetric] returns is the error value it stands at after its
    last call: the error of the extraction when nothing is dispatched, the
    error of a failed resolution, and otherwise what the last forward call
    returned, [nil] when that call succeeded whatever the earlier ones
    returned. *)
Lemma consumeMetric_outcome e md w :
  result (consumeMetric e md w) =
  foldl outcome
    (match routingIdentifiersFromMetrics md (routingKey_ e) with
     | inl _ => None
     | inr err => Some err
     end)
    (events (consumeMetric e md w)).
Proof.
  destruct (routingIdentifiersFromMetrics md (routingKey_ e)) as [ids|err] eqn:Hx.
  - rewrite (consumeMetric_extracted _ _ _ _ Hx). apply consumeMetricRange_outcome.
  - by rewrite (consumeMetric_not_extracted _ _ _ _ Hx).
Qed.

Lemma consumeMetric_shape e md w :
  dispatchShape md (events (consumeMetric e md w)).
Proof.
  destruct (routingIdentifiersFromMetrics md (routingKey_ e)) as [ids|err] eqn:Hx.
  - rewrite (consumeMetric_extracted _ _ _ _ Hx). apply consumeMetricRange_shape.
  - by rewrite (consumeMetric_not_extracted _ _ _ _ Hx).
Qed.

(** ** Properties of [ConsumeMetrics] *)

Lemma Append_None (a b : option error) :
  multierr.Append a b = None ↔ a = None ∧ b = None.
Proof. destruct a, b; simpl; split; (by intros [??]) || done. Qed.

Lemma Errors_Append (a b : option error) :
  multierr.Errors (multierr.Append a b) = multierr.Errors a ++ multierr.Errors b.
Proof. destruct a, b; simpl; by rewrite ?app_nil_r. Qed.

Lemma foldl_Append_None (errs : option error) (each : list (option error)) :
  foldl multierr.Append errs each = None ↔
  errs = None ∧ Forall (λ err, err = None) each.
Proof.
  revert errs. induction each as [|err each IH]; intros errs; simpl.
  - split; [by intros ->|by intros [-> _]].
  - rewrite IH, Append_None, Forall_cons. tauto.
Qed.

Lemma Errors_foldl_Append (errs : option error) (each : list (option error)) :
  multierr.Errors (foldl multierr.Append errs each) =
  multierr.Errors errs ++ concat (multierr.Errors <$> each).
Proof.
  revert errs. induction each as [|err each IH]; intros errs; simpl.
  - by rewrite app_nil_r.
  - by rewrite IH, Errors_Append, <-app_assoc.
Qed.

(** The loop of [ConsumeMetrics] dispatches each sub-batch in turn and
    appends what each returned. *)
Lemma ConsumeMetricsRange_each e batches errs w :
  ConsumeMetricsRange e batches errs w =
    let each := dispatchEach e batches w in
    (foldl multierr.Append errs (result each), world each, events each).
Proof.
  revert errs w. induction batches as [|batch rest IH]; intros errs w; [done|].
  simpl. unfold bind.
  destruct (consumeMetric e batch w) as [[err w1] l1].
  rewrite IH.
  destruct (dispatchEach e rest w1) as [[errs' w2] l2]. simpl.
  by rewrite app_nil_r.
Qed.

Lemma dispatchEach_length e batches w :
  length (result (dispatchEach e batches w)) = length batches.
Proof.
  revert w. induction batches as [|batch rest IH]; intros w; [done|].
  simpl. unfold bind.
  destruct (consumeMetric e batch w) as [[err w1] l1].
  specialize (IH w1).
  destruct (dispatchEach e rest w1) as [[errs' w2] l2].
  unfold result in *. simpl in *. by f_equal.
Qed.

(** ** Properties of the interleavings *)

(** No step of a [ConsumeMetrics] call touches the exporter: not the wait
    group, not the stop flag. *)
Lemma consumeStep_exporter s s' :
  consumeStep s = Some s' → exporter s' = exporter s ∧ closer s' = closer s.
Proof.
  unfold consumeStep.
  destruct (consumer s) as [md|errs [|batch rest]|ret']; try done.
  - by intros [= <-].
  - by intros [= <-].
  - destruct (consumeMetric _ _ _) as [[err w] l]. by intros [= <-].
Qed.

Lemma shutdownStep_shutdownWg s s' :
  shutdownStep s = Some s' →
  shutdownWg (exporter s') = shutdownWg (exporter s) ∧
  consumer s' = consumer s ∧ theWorld s' = theWorld s ∧ theLog s' = theLog s.
Proof.
  unfold shutdownStep. destruct (closer s); try done.
  - by intros [= <-].
  - case_decide; [|done]. by intros [= <-].
Qed.

(** The counter of the wait group never changes. *)
Lemma run_shutdownWg schedule s s' :
  run schedule s = Some s' →
  shutdownWg (exporter s') = shutdownWg (exporter s).
Proof.
  revert s. induction schedule as [|t rest IH]; intros s; simpl.
  - by intros [= <-].
  - destruct (step t s) as [s1|] eqn:Hstep; [|done]. simpl.
    intros Hrun. rewrite (IH _ Hrun).
    destruct t; simpl in Hstep.
    + by destruct (consumeStep_exporter _ _ Hstep) as [-> _].
    + by destruct (shutdownStep_shutdownWg _ _ Hstep) as [-> _].
Qed.

(** With the counter at zero a [Shutdown] call runs to its return at any
    point of a [ConsumeMetrics] call, and leaves that call, the world and
    the log as they were: it waits for nothing and calls no collaborator. *)
Lemma Shutdown_returns s :
  shutdownWg (exporter s) = 0%Z → closer s = SEntry →
  ∃ s', run [TShutdown; TShutdown] s = Some s' ∧
        closer s' = SReturned None ∧ stopped (exporter s') = true ∧
        consumer s' = consumer s ∧ theWorld s' = theWorld s ∧
        theLog s' = theLog s.
Proof.
  intros Hwg Hpc. cbn [run step].
  destruct (shutdownStep s) as [s1|] eqn:Hs1;
    unfold shutdownStep in Hs1; rewrite Hpc in Hs1; [|done].
  injection Hs1 as <-. cbn. unfold shutdownStep. cbn.
  rewrite decide_True by done. cbn.
  eexists. split; [done|]. by cbn.
Qed.

(** A [Shutdown] call scheduled alone does what [Shutdown] does. *)
Lemma run_shutdown_alone s :
  closer s = SEntry →
  run [TShutdown; TShutdown] s =
    '(e, ret) ← Shutdown (exporter s);
    Some {| exporter := e; theWorld := theWorld s; theLog := theLog s;
            consumer := consumer s; closer := SReturned ret |}.
Proof.
  intros Hpc. cbn [run step].
  destruct (shutdownStep s) as [s1|] eqn:Hs1;
    unfold shutdownStep in Hs1; rewrite Hpc in Hs1; [|done].
  injection Hs1 as <-. unfold Shutdown, shutdownStep. cbn.
  by case_decide.
Qed.

Lemma consumeMetric_aborts_on_resolution_aux e md w ids :
  routingIdentifiersFromMetrics md (routingKey_ e) = inl ids →
  Forall (λ ev, resolutionFailure ev = None) (events (consumeMetric e md w)) →
  visited (events (consumeMetric e md w)) = rangeOrder w ids ∧
  length (forwards (events (consumeMetric e md w))) = length (rangeOrder w ids).
Proof.
  intros Hx. rewrite (consumeMetric_extracted _ _ _ _ Hx).
  apply consumeMetricRange_visits_all.
Qed.

(** ** The claims *)

(** C2. [ConsumeMetrics] splits the payload, dispatches every sub-batch in
    turn whatever the earlier ones returned (its calls and the world it
    leaves are those of dispatching each), combines the errors of all
    sub-batches in one error, and returns [nil] exactly when the dispatch of
    every sub-batch returned [nil]. *)
Theorem ConsumeMetrics_aggregates e md w :
  let each := dispatchEach e (SplitMetrics md) w in
  length (result each) = length (SplitMetrics md) ∧
  events (ConsumeMetrics e md w) = events each ∧
  world (ConsumeMetrics e md w) = world each ∧
  result (ConsumeMetrics e md w) = foldl multierr.Append None (result each) ∧
  multierr.Errors (result (ConsumeMetrics e md w)) =
    concat (multierr.Errors <$> result each) ∧
  (result (ConsumeMetrics e md w) = None ↔
   Forall (λ err, err = None) (result each)).
Proof.
  intros each. unfold ConsumeMetrics. rewrite ConsumeMetricsRange_each.
  fold each. cbn [result world events fst snd].
  split; [apply dispatchEach_length|].
  do 3 (split; [done|]). split.
  - by rewrite Errors_foldl_Append.
  - rewrite foldl_Append_None. tauto.
Qed.

(** C3, amended. Within a sub-batch, a failed resolution of the exporter
    (no exporter for the endpoint, or an exporter that is not one of
    metrics) ends the dispatch: it is the last event, nothing is resolved,
    forwarded or recorded after it, and its error is returned. A failed
    forward call does not end it: as long as no resolution fails, every
    identifier of the range is taken up and forwarded. *)
Theorem consumeMetric_aborts_on_resolution e md w :
  (∀ l1 ev l2 err,
     events (consumeMetric e md w) = l1 ++ ev :: l2 →
     resolutionFailure ev = Some err →
     l2 = [] ∧ result (consumeMetric e md w) = Some err) ∧
  (∀ ids,
     routingIdentifiersFromMetrics md (routingKey_ e) = inl ids →
     Forall (λ ev, resolutionFailure ev = None) (events (consumeMetric e md w)) →
     visited (events (consumeMetric e md w)) = rangeOrder w ids ∧
     length (forwards (events (consumeMetric e md w))) =
       length (rangeOrder w ids)).
Proof.
  split.
  - intros l1 ev l2 err.
    destruct (routingIdentifiersFromMetrics md (routingKey_ e)) as [ids|err']
      eqn:Hx.
    + rewrite (consumeMetric_extracted _ _ _ _ Hx).
      apply consumeMetricRange_resolution.
    + rewrite (consumeMetric_not_extracted _ _ _ _ Hx). simpl.
      by destruct l1.
  - apply consumeMetric_aborts_on_resolution_aux.
Qed.

(** C5. In [svcRouting] mode, for a sub-batch that passes the three
    emptiness checks: when every resource group has a [service.name], the
    identifiers are exactly the distinct [service.name] values over all
    resource groups; when some resource group has none, the extraction
    returns the error, and no identifiers. *)
Theorem routingIdentifiers_service_names md :
  is_Some (firstMetric md) →
  (Forall (λ r, is_Some (serviceName r)) (ResourceMetrics md) →
   routingIdentifiersFromMetrics md svcRouting =
     inl (gset_to_gmap true (list_to_set (omap serviceName (ResourceMetrics md))))) ∧
  (Exists (λ r, serviceName r = None) (ResourceMetrics md) →
   routingIdentifiersFromMetrics md svcRouting = inr errNoServiceName).
Proof.
  intros [m Hm]. rewrite (routingIdentifiers_checked _ _ _ Hm).
  rewrite decide_True by done. split.
  - intros Hall. rewrite (serviceNameIds_all _ _ Hall).
    by rewrite (right_id_L ∅ (∪)).
  - apply serviceNameIds_missing.
Qed.

(** C6. In the default mode, for a sub-batch that passes the three
    emptiness checks, the identifiers are the one name of the first metric
    of the first scope of the first resource group; two sub-batches that
    agree on that name have the same identifiers, whatever else they
    hold. *)
Theorem routingIdentifiers_first_metric md m :
  firstMetric md = Some m →
  routingIdentifiersFromMetrics md traceIDRouting = inl {[ Name m := true ]} ∧
  (∀ md' m', firstMetric md' = Some m' → Name m' = Name m →
     routingIdentifiersFromMetrics md' traceIDRouting =
     routingIdentifiersFromMetrics md traceIDRouting).
Proof.
  intros Hm. rewrite (routingIdentifiers_checked _ _ _ Hm).
  split; [done|]. intros md' m' Hm' Hname.
  rewrite (routingIdentifiers_checked _ _ _ Hm'). simpl. by rewrite Hname.
Qed.

(** C7, amended. Whatever the routing key, the three emptiness checks are
    made in order on the first groups, and their three errors differ: a
    sub-batch with no resource group fails with the first; one whose first
    resource group has no scope, so one with no scope at all, with the
    second; one whose first scope has no metric, so one with no metric at all
    whose first resource group has a scope, with the third. The dispatch
    returns the error of the extraction with no call on the load balancer,
    and nothing forwarded or recorded. *)
Theorem emptiness_checks_in_order e md w :
  (errEmptyResourceMetrics ≠ errEmptyScopeMetrics ∧
   errEmptyScopeMetrics ≠ errEmptyMetrics ∧
   errEmptyResourceMetrics ≠ errEmptyMetrics) ∧
  (∀ key, ResourceMetrics md = [] →
     routingIdentifiersFromMetrics md key = inr errEmptyResourceMetrics) ∧
  (∀ key r rs, ResourceMetrics md = r :: rs → ScopeMetrics r = [] →
     routingIdentifiersFromMetrics md key = inr errEmptyScopeMetrics) ∧
  (∀ key, ResourceMetrics md ≠ [] → scopeGroups md = [] →
     routingIdentifiersFromMetrics md key = inr errEmptyScopeMetrics) ∧
  (∀ key r rs s ss,
     ResourceMetrics md = r :: rs → ScopeMetrics r = s :: ss → Metrics s = [] →
     routingIdentifiersFromMetrics md key = inr errEmptyMetrics) ∧
  (∀ key r rs,
     ResourceMetrics md = r :: rs → ScopeMetrics r ≠ [] → metricEntries md = [] →
     routingIdentifiersFromMetrics md key = inr errEmptyMetrics) ∧
  (∀ err, routingIdentifiersFromMetrics md (routingKey_ e) = inr err →
     consumeMetric e md w = (Some err, w, [])).
Proof.
  split; [done|].
  unfold routingIdentifiersFromMetrics, metricEntries, scopeGroups.
  split_and!.
  - by intros key ->.
  - by intros key r rs -> ->.
  - intros key Hne. destruct (ResourceMetrics md) as [|r rs]; [done|].
    simpl. by intros [-> _]%app_eq_nil.
  - by intros key r rs s ss -> -> ->.
  - intros key r rs -> Hscopes.
    destruct (ScopeMetrics r) as [|s ss] eqn:Hs; [done|].
    simpl. rewrite Hs. simpl. by intros [-> _]%app_eq_nil.
  - intros err Hx. by apply consumeMetric_not_extracted.
Qed.

(** C8, amended. Once the load balancer is built, the routing key
    ["service"] gives the mode [svcRouting], the keys [""] and
    ["_metric_ID"] give the default mode, and any other key makes the
    construction fail with the error that names the key; with such a key no
    exporter is returned in any case. When the load balancer cannot be
    built, the construction fails with the error of the load balancer. *)
Theorem newMetricsExporter_routing_key params cfg :
  (∀ lb, newLoadBalancer params cfg = inl lb →
     (RoutingKey cfg = "service" →
      newMetricsExporter params cfg =
        inl {| loadBalancer := lb; routingKey_ := svcRouting;
               stopped := false; shutdownWg := 0 |}) ∧
     (RoutingKey cfg = "" ∨ RoutingKey cfg = "_metric_ID" →
      newMetricsExporter params cfg =
        inl {| loadBalancer := lb; routingKey_ := traceIDRouting;
               stopped := false; shutdownWg := 0 |}) ∧
     (RoutingKey cfg ∉ ["service"; "_metric_ID"; ""] →
      newMetricsExporter params cfg =
        inr (errorString ("unsupported routing_key: " +:+ RoutingKey cfg)))) ∧
  (RoutingKey cfg ∉ ["service"; "_metric_ID"; ""] →
   ∃ err, newMetricsExporter params cfg = inr err) ∧
  (∀ err, newLoadBalancer params cfg = inr err →
     newMetricsExporter params cfg = inr err).
Proof using Type.
  unfold newMetricsExporter. split_and!.
  - intros lb ->. split_and!.
    + intros ->. by rewrite decide_True.
    + intros Hk. rewrite decide_False, decide_True; [done| |].
      * destruct Hk; [by right|by left].
      * by destruct Hk as [->| ->].
    + intros Hk. apply not_elem_of_cons in Hk as [Hs Hk].
      apply not_elem_of_cons in Hk as [Hm Hk].
      apply not_elem_of_cons in Hk as [He _].
      rewrite decide_False by done.
      rewrite decide_False by (by intros [?|?]). done.
  - intros Hk. apply not_elem_of_cons in Hk as [Hs Hk].
    apply not_elem_of_cons in Hk as [Hm Hk].
    apply not_elem_of_cons in Hk as [He _].
    destruct (newLoadBalancer params cfg) as [lb|err]; [|by eexists].
    rewrite decide_False by done.
    rewrite decide_False by (by intros [?|?]). by eexists.
  - by intros err ->.
Qed.

(** C9. Every forward call is followed at once by one latency sample, with
    the endpoint that was resolved for the identifier and the success tag
    true exactly when the call returned [nil], whether it failed or not;
    there is no other sample, so the samples are, one for one, the forward
    calls with their outcomes. *)
Theorem one_sample_per_forward e md w :
  dispatchShape md (events (consumeMetric e md w)) ∧
  sampledOnce (events (consumeMetric e md w)) ∧
  samples (events (consumeMetric e md w)) =
    forwards (events (consumeMetric e md w)).
Proof.
  split; [apply consumeMetric_shape|].
  destruct (routingIdentifiersFromMetrics md (routingKey_ e)) as [ids|err] eqn:Hx.
  - rewrite (consumeMetric_extracted _ _ _ _ Hx).
    split; [apply consumeMetricRange_sampledOnce|apply consumeMetricRange_samples].
  - by rewrite (consumeMetric_not_extracted _ _ _ _ Hx).
Qed.

(** C10, amended. The emptiness checks look at the first resource group,
    and in it at the first scope only: when the first scope of the first
    resource group has a metric the checks pass, whatever the other scopes
    and resource groups hold; the extraction is then the one of the routing
    key, and in the default mode the dispatch goes on to resolve the
    endpoint of the identifier. *)
Theorem first_group_checks e md w r rs s ss m ms :
  ResourceMetrics md = r :: rs → ScopeMetrics r = s :: ss →
  Metrics s = m :: ms →
  (∀ key err, routingIdentifiersFromMetrics md key = inr err →
     ¬ isEmptinessError err) ∧
  routingIdentifiersFromMetrics md traceIDRouting = inl {[ Name m := true ]} ∧
  routingIdentifiersFromMetrics md svcRouting = serviceNameIds (r :: rs) ∅ ∧
  (routingKey_ e = traceIDRouting →
   ∃ endpoint l,
     events (consumeMetric e md w) = EvEndpoint (Name m) endpoint :: l).
Proof.
  intros Hr Hs Hm.
  assert (firstMetric md = Some m) as Hfirst.
  { apply firstMetric_Some. by exists r, rs, s, ss, ms. }
  repeat split.
  - intros key err. rewrite (routingIdentifiers_checked _ _ _ Hfirst).
    case_decide; [|done].
    intros ->%serviceNameIds_not_emptiness. by intros [|[|]].
  - by rewrite (routingIdentifiers_checked _ _ _ Hfirst).
  - rewrite (routingIdentifiers_checked _ _ _ Hfirst), Hr.
    by rewrite decide_True.
  - intros Hkey.
    assert (routingIdentifiersFromMetrics md (routingKey_ e)
            = inl {[ Name m := true ]}) as Hx.
    { rewrite Hkey. by rewrite (routingIdentifiers_checked _ _ _ Hfirst). }
    rewrite (consumeMetric_extracted _ _ _ _ Hx).
    pose proof (rangeOrder_keys w {[ Name m := true ]}) as Hperm.
    rewrite dom_singleton_L, elements_singleton in Hperm.
    apply Permutation_singleton_r in Hperm. rewrite Hperm.
    rewrite consumeMetricRange_cons.
    destruct (lb_Endpoint _ _ _) as [endpoint w1].
    destruct (lb_Exporter _ _ _) as [[[te|typeName]|err] w2]; [|by eauto..].
    destruct (te_ConsumeMetrics _ _ _) as [err w3].
    destruct (consumeMetricRange _ _ _ _ _) as [[ret' w4] l]. simpl. eauto.
Qed.

(** When no resolution fails, each identifier of the set is taken up once,
    forwarded once and sampled once. *)
Theorem consumeMetric_each_identifier_once e md w ids :
  routingIdentifiersFromMetrics md (routingKey_ e) = inl ids →
  Forall (λ ev, resolutionFailure ev = None) (events (consumeMetric e md w)) →
  visited (events (consumeMetric e md w)) ≡ₚ elements (dom ids) ∧
  length (forwards (events (consumeMetric e md w))) = size (dom ids) ∧
  length (samples (events (consumeMetric e md w))) = size (dom ids).
Proof.
  intros Hx Hall.
  destruct (consumeMetric_aborts_on_resolution_aux e md w ids Hx Hall)
    as [Hv Hf].
  rewrite (consumeMetric_extracted _ _ _ _ Hx) in *.
  rewrite consumeMetricRange_samples, Hv, Hf.
  split; [apply rangeOrder_keys|].
  unfold size, set_size. simpl. by rewrite (rangeOrder_keys w ids).
Qed.

(** ** Further properties of the extraction *)

Lemma serviceNameIds_inl rs (ids ids' : gmap string bool) :
  serviceNameIds rs ids = inl ids' →
  Forall (λ r, is_Some (serviceName r)) rs.
Proof using Type.
  revert ids. induction rs as [|r rs IH]; intros ids; [done|].
  rewrite serviceNameIds_cons.
  destruct (serviceName r) as [n|] eqn:Hn; [|done].
  intros Hrest. constructor; [by eexists|by eapply IH].
Qed.

Lemma size_list_to_set_le (l : list string) :
  size (list_to_set l : gset string) ≤ length l.
Proof using Type.
  induction l as [|x l IH].
  - by rewrite list_to_set_nil, size_empty.
  - rewrite list_to_set_cons, size_union_alt, size_singleton. simpl.
    assert (size ((list_to_set l : gset string) ∖ {[x]}) ≤ size (list_to_set l : gset string))
      by (by apply subseteq_size, subseteq_difference_l).
    lia.
Qed.

Lemma length_omap_le {A B} (f : A → option B) (l : list A) :
  length (omap f l) ≤ length l.
Proof using Type.
  induction l as [|x l IH]; csimpl; [done|]. destruct (f x); csimpl; lia.
Qed.

(** An extraction that succeeds gives at least one identifier and at most
    one for each resource group, exactly one outside the [svcRouting] mode,
    and every identifier is mapped to [true]. *)
Theorem routingIdentifiers_nonempty md key ids :
  routingIdentifiersFromMetrics md key = inl ids →
  ids ≠ ∅ ∧
  (∀ k v, ids !! k = Some v → v = true) ∧
  1 ≤ size ids ≤ length (ResourceMetrics md) ∧
  (key ≠ svcRouting → size ids = 1).
Proof using Type.
  intros Hx.
  destruct (firstMetric md) as [m|] eqn:Hm; last first.
  { destruct (routingIdentifiers_unchecked md key Hm) as (err & _ & Herr).
    congruence. }
  rewrite (routingIdentifiers_checked _ _ _ Hm) in Hx.
  apply firstMetric_Some in Hm as (r & rs & s & ss & ms & Hr & _ & _).
  rewrite Hr in *. destruct (decide (key = svcRouting)) as [->|Hkey].
  - pose proof (serviceNameIds_inl _ _ _ Hx) as Hall.
    rewrite (serviceNameIds_all _ _ Hall), (right_id_L ∅ (∪)) in Hx.
    pose proof (length_omap_le serviceName (r :: rs)) as Hlen.
    assert (∃ n, n ∈ omap serviceName (r :: rs)) as [n Hin].
    { apply Forall_cons in Hall as [[n Hn] _]. exists n.
      apply list_elem_of_omap. exists r.
      split; [apply elem_of_cons; by left|done]. }
    revert Hx Hlen Hin. generalize (omap serviceName (r :: rs)).
    intros names [= <-] Hlen Hin.
    assert (size (gset_to_gmap true (list_to_set names : gset string))
            = size (list_to_set names : gset string))
      as Hsize by (by rewrite <-size_dom, dom_gset_to_gmap).
    apply (elem_of_list_to_set (C := gset string)) in Hin.
    split_and!.
    + intros Hempty.
      assert (gset_to_gmap true (list_to_set names : gset string) !! n
              = Some true) as Hl by (by apply lookup_gset_to_gmap_Some).
      rewrite Hempty in Hl. by rewrite lookup_empty in Hl.
    + by intros k v [_ <-]%lookup_gset_to_gmap_Some.
    + rewrite Hsize.
      assert (size (list_to_set names : gset string) ≠ 0); [|lia].
      apply size_non_empty_iff. intros Hempty. rewrite Hempty in Hin.
      by apply not_elem_of_empty in Hin.
    + rewrite Hsize. etrans; [apply size_list_to_set_le|done].
    + done.
  - injection Hx as <-. split_and!.
    + apply insert_non_empty.
    + by intros k v [_ <-]%lookup_singleton_Some.
    + by rewrite map_size_singleton.
    + rewrite map_size_singleton. simpl. lia.
    + by rewrite map_size_singleton.
Qed.

(** When the extraction succeeds and when it fails: it succeeds exactly when
    the sub-batch has a first metric and, in the [svcRouting] mode, every
    resource group has a [service.name]; it fails with one of four errors, an
    emptiness error exactly when there is no first metric. *)
Theorem routingIdentifiers_success md key :
  ((∃ ids, routingIdentifiersFromMetrics md key = inl ids) ↔
   is_Some (firstMetric md) ∧
   (key = svcRouting →
    Forall (λ r, is_Some (serviceName r)) (ResourceMetrics md))) ∧
  (∀ err, routingIdentifiersFromMetrics md key = inr err →
     (isEmptinessError err ∨ err = errNoServiceName) ∧
     (isEmptinessError err ↔ firstMetric md = None)).
Proof using Type.
  destruct (firstMetric md) as [m|] eqn:Hm.
  - rewrite (routingIdentifiers_checked _ _ _ Hm).
    destruct (decide (key = svcRouting)) as [->|Hkey]; split.
    + split.
      * intros [ids Hx]. split; [by eexists|]. intros _.
        by eapply serviceNameIds_inl.
      * intros [_ Hall]. rewrite (serviceNameIds_all _ _ (Hall eq_refl)).
        by eexists.
    + intros err ->%serviceNameIds_not_emptiness. split; [by right|].
      split; [by intros [|[|]]|done].
    + split; [intros _; split; [by eexists|done]|by eexists].
    + done.
  - destruct (routingIdentifiers_unchecked md key Hm) as (err & Hempt & ->).
    split.
    + split; [by intros [ids ?]|by intros [[? ?] _]].
    + intros err' [= <-]. split; [by left|done].
Qed.

(** In the [svcRouting] mode only the [service.name] of the resource groups
    counts, not their order: two sub-batches that pass the emptiness checks
    and whose resource groups carry the same service names, in any order and
    with any scopes and metrics, have the same extraction. *)
Theorem routingIdentifiers_service_order md md' :
  is_Some (firstMetric md) → is_Some (firstMetric md') →
  serviceName <$> ResourceMetrics md ≡ₚ serviceName <$> ResourceMetrics md' →
  routingIdentifiersFromMetrics md svcRouting =
  routingIdentifiersFromMetrics md' svcRouting.
Proof using Type.
  intros [m Hm] [m' Hm'] Hperm.
  rewrite (routingIdentifiers_checked _ _ _ Hm),
    (routingIdentifiers_checked _ _ _ Hm'), !decide_True by done.
  assert (∀ rs : list resourceMetrics,
            omap serviceName rs = omap id (serviceName <$> rs)) as Homap.
  { intros rs. induction rs as [|r rs IH]; [done|]. csimpl.
    destruct (serviceName r); csimpl; by f_equal. }
  assert (∀ rs : list resourceMetrics,
            Forall (λ r, is_Some (serviceName r)) rs ↔
            Forall is_Some (serviceName <$> rs)) as HF
    by (intros rs; by rewrite Forall_fmap).
  assert (∀ rs : list resourceMetrics,
            ¬ Forall is_Some (serviceName <$> rs) →
            Exists (λ r, serviceName r = None) rs) as HE.
  { intros rs. induction rs as [|r rs IH]; csimpl; intros Hn.
    - destruct Hn. constructor.
    - destruct (serviceName r) as [n|] eqn:Hr; [|by left].
      right. apply IH. intros Hall. apply Hn. by constructor. }
  destruct (decide (Forall is_Some (serviceName <$> ResourceMetrics md)))
    as [Hall|Hex].
  - pose proof Hall as Hall'. rewrite Hperm in Hall'.
    apply HF in Hall, Hall'.
    rewrite (serviceNameIds_all _ _ Hall), (serviceNameIds_all _ _ Hall').
    rewrite !Homap.
    assert (omap id (serviceName <$> ResourceMetrics md)
            ≡ₚ omap id (serviceName <$> ResourceMetrics md')) as Hp
      by (by rewrite Hperm).
    by rewrite (list_to_set_perm_L (C := gset string) _ _ Hp).
  - pose proof Hex as Hex'. rewrite Hperm in Hex'.
    by rewrite !serviceNameIds_missing by (by apply HE).
Qed.

(** ** Further properties of [consumeMetric] *)

(** One turn of the loop, with names: the forward call returned [ferr], the
    rest of the loop gave the log [l]. *)
Ltac named_turn IH :=
  rewrite consumeMetricRange_cons;
  destruct (lb_Endpoint _ _ _) as [endpoint w1];
  destruct (lb_Exporter _ _ _) as [[[te|typeName]|rerr] w2];
  [ destruct (te_ConsumeMetrics _ _ _) as [ferr w3];
    specialize (IH ferr w3);
    destruct (consumeMetricRange _ _ _ _ _) as [[ret' w4] l]
  | | ];
  cbn [result world events fst snd] in *.

Lemma consumeMetricRange_error_met e md rids err0 w err :
  result (consumeMetricRange e md rids err0 w) = Some err →
  last (errorsMet (events (consumeMetricRange e md rids err0 w))) = Some err ∨
  (errorsMet (events (consumeMetricRange e md rids err0 w)) = [] ∧
   err0 = Some err).
Proof using Type.
  revert err0 w. induction rids as [|rid rest IH]; intros err0 w.
  { intros Hret. cbn in Hret. subst err0. by right. }
  named_turn IH; unfold errorsMet in *; csimpl; intros Hret.
  - destruct (IH Hret) as [Hlast|[Hnil ->]].
    + left. destruct ferr as [ferr|]; csimpl; [|done].
      by rewrite last_cons, Hlast.
    + left. csimpl. by rewrite Hnil.
  - left. by injection Hret as ->.
  - left. by injection Hret as ->.
Qed.

Lemma consumeMetricRange_no_error_met e md rids w :
  errorsMet (events (consumeMetricRange e md rids None w)) = [] →
  result (consumeMetricRange e md rids None w) = None.
Proof using Type.
  revert w. induction rids as [|rid rest IH]; intros w; [done|].
  rewrite consumeMetricRange_cons.
  destruct (lb_Endpoint _ _ _) as [endpoint w1].
  destruct (lb_Exporter _ _ _) as [[[te|typeName]|rerr] w2]; [|done..].
  destruct (te_ConsumeMetrics _ _ _) as [[ferr|] w3].
  { by destruct (consumeMetricRange _ _ _ _ _) as [[ret' w4] l]. }
  specialize (IH w3).
  destruct (consumeMetricRange _ _ _ _ _) as [[ret' w4] l].
  unfold errorsMet in *. csimpl in *. done.
Qed.

(** An error [consumeMetric] returns is never made up: it is the error of the
    extraction, or the last error met in the dispatch. And when the
    extraction succeeds and no error is met, [consumeMetric] returns
    [nil]. *)
Theorem consumeMetric_error_was_met e md w :
  (∀ err, result (consumeMetric e md w) = Some err →
     routingIdentifiersFromMetrics md (routingKey_ e) = inr err ∨
     last (errorsMet (events (consumeMetric e md w))) = Some err) ∧
  (is_Some (firstMetric md) →
   (routingKey_ e = svcRouting →
    Forall (λ r, is_Some (serviceName r)) (ResourceMetrics md)) →
   errorsMet (events (consumeMetric e md w)) = [] →
   result (consumeMetric e md w) = None).
Proof using Type.
  destruct (routingIdentifiersFromMetrics md (routingKey_ e)) as [ids|err']
    eqn:Hx.
  - rewrite (consumeMetric_extracted _ _ _ _ Hx). split.
    + intros err Hret.
      destruct (consumeMetricRange_error_met _ _ _ _ _ _ Hret) as [?|[_ ?]];
        [by right|done].
    + intros _ _. apply consumeMetricRange_no_error_met.
  - rewrite (consumeMetric_not_extracted _ _ _ _ Hx). split.
    + intros err [= <-]. by left.
    + intros [m Hm] Hall _. exfalso.
      rewrite (routingIdentifiers_checked _ _ _ Hm) in Hx.
      destruct (decide (routingKey_ e = svcRouting)) as [Hk|Hk]; [|done].
      by rewrite (serviceNameIds_all _ _ (Hall Hk)) in Hx.
Qed.

Lemma consumeMetricRange_nil e md rids err0 w :
  result (consumeMetricRange e md rids err0 w) = None →
  Forall (λ ev, resolutionFailure ev = None)
    (events (consumeMetricRange e md rids err0 w)) ∧
  match last (forwards (events (consumeMetricRange e md rids err0 w))) with
  | Some (_, ok) => ok = true
  | None => err0 = None
  end.
Proof using Type.
  revert err0 w. induction rids as [|rid rest IH]; intros err0 w; [done|].
  named_turn IH; unfold forwards in *; csimpl; intros Hret; try done.
  destruct (IH Hret) as [Hall Hlast]. split; [by repeat constructor|].
  rewrite last_cons.
  destruct (last (omap _ l)) as [[ep ok]|]; [done|].
  rewrite Hlast. by rewrite bool_decide_eq_true_2.
Qed.

(** What a [nil] from [consumeMetric] means: the extraction succeeded, no
    resolution of an exporter failed, every identifier of the set was taken
    up, and the last forward call succeeded; it says nothing of the forward
    calls before the last. *)
Theorem consumeMetric_nil e md w :
  result (consumeMetric e md w) = None →
  ∃ ids,
    routingIdentifiersFromMetrics md (routingKey_ e) = inl ids ∧
    Forall (λ ev, resolutionFailure ev = None) (events (consumeMetric e md w)) ∧
    visited (events (consumeMetric e md w)) ≡ₚ elements (dom ids) ∧
    (∀ endpoint ok,
       last (forwards (events (consumeMetric e md w))) = Some (endpoint, ok) →
       ok = true).
Proof.
  destruct (routingIdentifiersFromMetrics md (routingKey_ e)) as [ids|err']
    eqn:Hx.
  - rewrite (consumeMetric_extracted _ _ _ _ Hx). intros Hret.
    destruct (consumeMetricRange_nil _ _ _ _ _ Hret) as [Hall Hlast].
    exists ids. split_and!; [done|done| |].
    + destruct (consumeMetricRange_visits_all _ _ _ _ _ Hall) as [-> _].
      apply rangeOrder_keys.
    + intros endpoint ok Hl. by rewrite Hl in Hlast.
  - by rewrite (consumeMetric_not_extracted _ _ _ _ Hx).
Qed.

Lemma consumeMetricRange_forwards_le e md rids err0 w :
  length (forwards (events (consumeMetricRange e md rids err0 w))) ≤
  length (visited (events (consumeMetricRange e md rids err0 w))).
Proof using Type.
  revert err0 w. induction rids as [|rid rest IH]; intros err0 w; [done|].
  named_turn IH; unfold forwards, visited in *; csimpl; lia.
Qed.

(** [consumeMetric] takes up identifiers of the extracted set only, each at
    most once, and forwards and samples at most once for each. *)
Theorem consumeMetric_visits_identifiers_only e md w ids :
  routingIdentifiersFromMetrics md (routingKey_ e) = inl ids →
  NoDup (visited (events (consumeMetric e md w))) ∧
  (∀ rid, rid ∈ visited (events (consumeMetric e md w)) → rid ∈ dom ids) ∧
  length (samples (events (consumeMetric e md w))) =
    length (forwards (events (consumeMetric e md w))) ∧
  length (forwards (events (consumeMetric e md w))) ≤
    length (visited (events (consumeMetric e md w))) ∧
  length (visited (events (consumeMetric e md w))) ≤ size (dom ids).
Proof.
  intros Hx. rewrite (consumeMetric_extracted _ _ _ _ Hx).
  pose proof (consumeMetricRange_visited_prefix e md (rangeOrder w ids) None w)
    as Hpre.
  pose proof (rangeOrder_keys w ids) as Hperm.
  assert (NoDup (rangeOrder w ids)) as Hnd
    by (rewrite Hperm; apply NoDup_elements).
  split_and!.
  - destruct Hpre as [k Hk]. rewrite Hk in Hnd.
    by apply NoDup_app in Hnd as [? _].
  - intros rid Hin. apply elem_of_elements. rewrite <-Hperm.
    destruct Hpre as [k ->]. apply elem_of_app. by left.
  - by rewrite consumeMetricRange_samples.
  - apply consumeMetricRange_forwards_le.
  - apply prefix_length in Hpre. unfold size, set_size. simpl.
    by rewrite <-Hperm.
Qed.

Lemma consumeMetricRange_sampleValues e md rids err0 w :
  (∀ te md' w', (clock w' ≤ clock (te_ConsumeMetrics te md' w').2)%Z) →
  Forall (λ millis, (0 ≤ millis)%Z)
    (sampleValues (events (consumeMetricRange e md rids err0 w))).
Proof using Type.
  intros Hclock. revert err0 w.
  induction rids as [|rid rest IH]; intros err0 w; [by constructor|].
  rewrite consumeMetricRange_cons.
  destruct (lb_Endpoint _ _ _) as [endpoint w1].
  destruct (lb_Exporter _ _ _) as [[[te|typeName]|err] w2];
    [|by constructor..].
  pose proof (Hclock te md w2) as Hle.
  destruct (te_ConsumeMetrics _ _ _) as [err w3].
  specialize (IH err w3).
  destruct (consumeMetricRange _ _ _ _ _) as [[ret' w4] l].
  unfold sampleValues in *. csimpl in *. constructor; [|done].
  unfold Milliseconds. apply Z.quot_pos; lia.
Qed.

(** When the clock does not go back during a forward call, no latency sample
    is negative. *)
Theorem samples_not_negative e md w :
  (∀ te md' w', (clock w' ≤ clock (te_ConsumeMetrics te md' w').2)%Z) →
  Forall (λ millis, (0 ≤ millis)%Z)
    (sampleValues (events (consumeMetric e md w))).
Proof using Type.
  intros Hclock.
  destruct (routingIdentifiersFromMetrics md (routingKey_ e)) as [ids|err']
    eqn:Hx.
  - rewrite (consumeMetric_extracted _ _ _ _ Hx).
    by apply consumeMetricRange_sampleValues.
  - rewrite (consumeMetric_not_extracted _ _ _ _ Hx). constructor.
Qed.

(** ** Further properties of [ConsumeMetrics], [Start] and [Shutdown] *)

Lemma consumeMetricRange_exporter e e' md rids err0 w :
  loadBalancer e' = loadBalancer e →
  consumeMetricRange e' md rids err0 w = consumeMetricRange e md rids err0 w.
Proof using Type.
  intros Hlb. revert err0 w.
  induction rids as [|rid rest IH]; intros err0 w; [done|].
  rewrite !consumeMetricRange_cons, Hlb.
  destruct (lb_Endpoint _ _ _) as [endpoint w1].
  destruct (lb_Exporter _ _ _) as [[[te|typeName]|rerr] w2]; [|done..].
  destruct (te_ConsumeMetrics _ _ _) as [ferr w3]. by rewrite IH.
Qed.

Lemma consumeMetric_exporter e e' md w :
  loadBalancer e' = loadBalancer e → routingKey_ e' = routingKey_ e →
  consumeMetric e' md w = consumeMetric e md w.
Proof using Type.
  intros Hlb Hkey. unfold consumeMetric. rewrite Hkey.
  destruct (routingIdentifiersFromMetrics _ _); [|done].
  unfold bind, read. by rewrite (consumeMetricRange_exporter e e').
Qed.

Lemma ConsumeMetricsRange_exporter e e' batches errs w :
  loadBalancer e' = loadBalancer e → routingKey_ e' = routingKey_ e →
  ConsumeMetricsRange e' batches errs w = ConsumeMetricsRange e batches errs w.
Proof using Type.
  intros Hlb Hkey. revert errs w.
  induction batches as [|batch rest IH]; intros errs w; [done|].
  simpl. unfold bind. rewrite (consumeMetric_exporter e e') by done.
  destruct (consumeMetric e batch w) as [[err w1] l1]. by rewrite IH.
Qed.

(** The stop flag is never consulted: once [Shutdown] has returned, the
    exporter dispatches a payload exactly as it did before, and [Start]
    starts the load balancer as before. *)
Theorem ConsumeMetrics_after_Shutdown e e' ret md w :
  Shutdown e = Some (e', ret) →
  stopped e' = true ∧
  ConsumeMetrics e' md w = ConsumeMetrics e md w ∧
  Start e' w = Start e w.
Proof using Type.
  unfold Shutdown. case_decide; [|done]. intros [= <- <-].
  split; [done|]. split; [|done].
  by apply ConsumeMetricsRange_exporter.
Qed.

(** [Shutdown] returns no error and changes the stop flag only; a second
    [Shutdown] changes nothing. With a wait group that is not at zero it
    does not return. *)
Theorem Shutdown_idempotent e :
  (shutdownWg e = 0%Z →
   ∃ e', Shutdown e = Some (e', None) ∧
         stopped e' = true ∧
         loadBalancer e' = loadBalancer e ∧
         routingKey_ e' = routingKey_ e ∧
         shutdownWg e' = shutdownWg e ∧
         Shutdown e' = Some (e', None)) ∧
  (shutdownWg e ≠ 0%Z → Shutdown e = None).
Proof using Type.
  unfold Shutdown. simpl. split; intros Hwg.
  - rewrite decide_True by done. eexists. split; [reflexivity|].
    simpl. rewrite decide_True by done. by split_and!.
  - by rewrite decide_False.
Qed.

Lemma consumeMetricRange_forwarded e md rids err0 w :
  Forall (λ md', md' = md)
    (forwarded (events (consumeMetricRange e md rids err0 w))).
Proof using Type.
  revert err0 w. induction rids as [|rid rest IH]; intros err0 w;
    [by constructor|].
  named_turn IH; unfold forwarded in *; csimpl; by repeat constructor.
Qed.

Lemma consumeMetric_forwarded e md w :
  Forall (λ md', md' = md) (forwarded (events (consumeMetric e md w))).
Proof using Type.
  destruct (routingIdentifiersFromMetrics md (routingKey_ e)) as [ids|err']
    eqn:Hx.
  - rewrite (consumeMetric_extracted _ _ _ _ Hx).
    apply consumeMetricRange_forwarded.
  - rewrite (consumeMetric_not_extracted _ _ _ _ Hx). constructor.
Qed.

Lemma ConsumeMetricsRange_forwarded e batches errs w :
  Forall (λ md', md' ∈ batches)
    (forwarded (events (ConsumeMetricsRange e batches errs w))).
Proof using Type.
  revert errs w. induction batches as [|batch rest IH]; intros errs w;
    [by constructor|].
  simpl. unfold bind.
  pose proof (consumeMetric_forwarded e batch w) as Hb.
  destruct (consumeMetric e batch w) as [[err w1] l1].
  specialize (IH (multierr.Append errs err) w1).
  destruct (ConsumeMetricsRange _ _ _ _) as [[ret' w2] l2].
  cbn [events snd] in *. unfold forwarded in *. rewrite omap_app.
  apply Forall_app. split.
  - eapply Forall_impl; [exact Hb|]. intros md' ->. apply elem_of_cons. by left.
  - eapply Forall_impl; [exact IH|]. intros md' Hin. apply elem_of_cons.
    by right.
Qed.

(** The exporter declares that it does not change the data, and it does not:
    whatever [ConsumeMetrics] forwards is one of the sub-batches of the split,
    whole and as the split gave it. *)
Theorem ConsumeMetrics_forwards_sub_batches e md w :
  MutatesData (Capabilities_ e) = false ∧
  ∀ md', md' ∈ forwarded (events (ConsumeMetrics e md w)) →
         md' ∈ SplitMetrics md.
Proof using Type.
  split; [done|]. intros md' Hin.
  pose proof (ConsumeMetricsRange_forwarded e (SplitMetrics md) None w) as Hall.
  rewrite Forall_forall in Hall. by apply Hall.
Qed.

(** The loop of [ConsumeMetrics] over sub-batches in two parts is the loop
    over the first part followed by the loop over the second, which starts
    from the error and the world the first one left. *)
Theorem ConsumeMetricsRange_app e batches1 batches2 errs w :
  let x := ConsumeMetricsRange e batches1 errs w in
  let y := ConsumeMetricsRange e batches2 (result x) (world x) in
  ConsumeMetricsRange e (batches1 ++ batches2) errs w =
    (result y, world y, events x ++ events y).
Proof using Type.
  revert errs w. induction batches1 as [|batch rest IH]; intros errs w.
  - simpl. by destruct (ConsumeMetricsRange _ _ _ _) as [[??]?].
  - simpl. unfold bind.
    destruct (consumeMetric e batch w) as [[err w1] l1]. rewrite IH.
    destruct (ConsumeMetricsRange e rest _ _) as [[ret1 w2] l2].
    cbn [result world events fst snd].
    destruct (ConsumeMetricsRange e batches2 _ _) as [[ret2 w3] l3].
    cbn [result world events fst snd]. by rewrite app_assoc.
Qed.

(** A payload that splits into no sub-batch is accepted with no call at all,
    and the error of a payload of one sub-batch is the error of that
    sub-batch as it is, not wrapped. *)
Theorem ConsumeMetrics_few_sub_batches e md w :
  (SplitMetrics md = [] → ConsumeMetrics e md w = (None, w, [])) ∧
  (∀ batch, SplitMetrics md = [batch] →
     ConsumeMetrics e md w = consumeMetric e batch w).
Proof using Type.
  unfold ConsumeMetrics. split.
  - by intros ->.
  - intros batch ->. simpl. unfold bind, ret.
    destruct (consumeMetric e batch w) as [[err w1] l1].
    by rewrite app_nil_r.
Qed.

(** ** Further properties of the interleavings *)




End Dispatch.

(** * The claims on the concrete world *)

Import Fixture.

Local Abbreviation consumeMetric' :=
  (consumeMetric lb_Endpoint lb_Exporter te_ConsumeMetrics clock rangeOrder).
Local Abbreviation ConsumeMetrics' :=
  (ConsumeMetrics lb_Endpoint lb_Exporter te_ConsumeMetrics clock rangeOrder
     SplitMetrics).
Local Abbreviation run' :=
  (run lb_Endpoint lb_Exporter te_ConsumeMetrics clock rangeOrder SplitMetrics).

Lemma Fixture_rangeOrder_keys (w : Z) (ids : gmap string bool) :
  rangeOrder w ids ≡ₚ elements (dom ids).
Proof. done. Qed.

(** The sub-batch of the two services ["a"] and ["b"], dispatched by service
    name: the backend of ["a"] refuses the batch, a failure sample is
    recorded, and the dispatch goes on with ["b"], whose backend accepts. *)
Lemma two_services_log :
  consumeMetric' (exporterWith svcRouting) (batch [service "a"; service "b"]) 0%Z =
    (None, 5000000%Z,
     [EvEndpoint "a" "backend-a";
      EvExporter "backend-a" (inl (exporterMetrics "backend-a"));
      EvForward "backend-a" "backend-a" (batch [service "a"; service "b"])
        (Some (errorString "connection refused"));
      EvRecord "backend-a" false 2;
      EvEndpoint "b" "backend-b";
      EvExporter "backend-b" (inl (exporterMetrics "backend-b"));
      EvForward "backend-b" "backend-b" (batch [service "a"; service "b"]) None;
      EvRecord "backend-b" true 2]).
Proof. vm_compute. reflexivity. Qed.

(** C1. [consumeMetric] is to return the last error met among the
    identifiers it processed. On the sub-batch of the services ["a"] and
    ["b"] the forward call for ["a"] fails and the one for ["b"] succeeds:
    the one error met is that of ["a"], and [consumeMetric] returns [nil]. *)
Lemma consumeMetric_drops_forward_error :
  let x := consumeMetric' (exporterWith svcRouting)
             (batch [service "a"; service "b"]) 0%Z in
  errorsMet (events x) = [errorString "connection refused"] ∧
  last (errorsMet (events x)) = Some (errorString "connection refused") ∧
  result x = None.
Proof. rewrite two_services_log. by vm_compute. Qed.

(** C3, as stated, fails: the forward call for ["a"] fails, and after it the
    endpoint of ["b"] is resolved, the batch is forwarded to it and a sample
    is recorded. *)
Lemma forward_failure_does_not_abort :
  ¬ abortsOnFirstFailure
      (events (consumeMetric' (exporterWith svcRouting)
                 (batch [service "a"; service "b"]) 0%Z)).
Proof.
  rewrite two_services_log. intros Habort.
  destruct (Habort [_; _] _ _ eq_refl) as [Hvisited _]; [by eexists|].
  discriminate Hvisited.
Qed.

(** C3, amended, on two sub-batches: the exporter of ["gone"] is missing, so
    the dispatch stops there with that error and the two other services are
    not taken up; no resolution fails for ["a"] and ["b"], so both are taken
    up and forwarded although the first forward call fails. *)
Lemma consumeMetric_aborts_on_resolution_example :
  let x := consumeMetric' (exporterWith svcRouting)
             (batch [service "b"; service "gone"; service "z"]) 0%Z in
  let y := consumeMetric' (exporterWith svcRouting)
             (batch [service "a"; service "b"]) 0%Z in
  (events x = [EvEndpoint "gone" "backend-gone"]
              ++ EvExporter "backend-gone"
                   (inr (errorString "couldn't find the exporter for the endpoint"))
              :: [] ∧
   (([] : list (Event string)) = [] ∧
    result x = Some (errorString "couldn't find the exporter for the endpoint"))) ∧
  (visited (events y) = ["a"; "b"] ∧ length (forwards (events y)) = 2).
Proof.
  intros x y. split.
  - assert (events x = [EvEndpoint "gone" "backend-gone"]
              ++ EvExporter "backend-gone"
                   (inr (errorString "couldn't find the exporter for the endpoint"))
              :: []) as Hlog by (by vm_compute).
    split; [exact Hlog|].
    exact (proj1 (consumeMetric_aborts_on_resolution lb_Endpoint lb_Exporter
                    te_ConsumeMetrics clock rangeOrder
                    (exporterWith svcRouting)
                    (batch [service "b"; service "gone"; service "z"]) 0%Z)
             _ _ _ _ Hlog eq_refl).
  - refine (proj2 (consumeMetric_aborts_on_resolution lb_Endpoint lb_Exporter
                     te_ConsumeMetrics clock rangeOrder
                     (exporterWith svcRouting)
                     (batch [service "a"; service "b"]) 0%Z)
              (gset_to_gmap true (list_to_set ["a"; "b"])) _ _).
    + by vm_compute.
    + unfold y. rewrite two_services_log. by repeat constructor.
Defined.

(** C2 on a payload of four resource groups: the backend of ["a"] refuses
    its sub-batch, the third sub-batch has no scope, the exporter of ["gone"]
    is missing; the sub-batch of ["b"] is dispatched all the same and the
    three errors are returned as one. *)
Example ConsumeMetrics_aggregates_example :
  let x := ConsumeMetrics' (exporterWith svcRouting)
             (batch [service "a"; service "b"; noScopes; service "gone"]) 0%Z in
  result x =
    Some (multiError [errorString "connection refused";
                      errEmptyScopeMetrics;
                      errorString "couldn't find the exporter for the endpoint"]) ∧
  forwards (events x) = [("backend-a", false); ("backend-b", true)] ∧
  visited (events x) = ["a"; "b"; "gone"].
Proof. by vm_compute. Qed.

(** C5 on two sub-batches: three resource groups of the services ["a"],
    ["b"] and ["a"] again give the two identifiers ["a"] and ["b"]; a
    resource group with no [service.name] after one that has it gives the
    error. *)
Lemma routingIdentifiers_service_names_example :
  (is_Some (firstMetric (batch [service "a"; service "b"; service "a"])) ∧
   routingIdentifiersFromMetrics (batch [service "a"; service "b"; service "a"])
     svcRouting =
     inl (gset_to_gmap true (list_to_set ["a"; "b"; "a"]))) ∧
  (is_Some (firstMetric (batch [service "a"; anonymous])) ∧
   routingIdentifiersFromMetrics (batch [service "a"; anonymous]) svcRouting =
     inr errNoServiceName).
Proof.
  split; (split; [by eexists|]).
  - apply (proj1 (routingIdentifiers_service_names
                    (batch [service "a"; service "b"; service "a"])
                    (ex_intro _ cpu eq_refl))).
    repeat constructor; by eexists.
  - apply (proj2 (routingIdentifiers_service_names
                    (batch [service "a"; anonymous])
                    (ex_intro _ cpu eq_refl))).
    apply Exists_cons_tl, Exists_cons_hd. reflexivity.
Defined.

(** C6 on a sub-batch of two resource groups and two metrics: the one
    identifier is the name of the first metric. *)
Lemma routingIdentifiers_first_metric_example :
  firstMetric (batch [service "a"; anonymous]) = Some cpu ∧
  routingIdentifiersFromMetrics (batch [service "a"; anonymous]) traceIDRouting =
    inl {[ "cpu" := true ]}.
Proof.
  split; [reflexivity|].
  exact (proj1 (routingIdentifiers_first_metric
                  (batch [service "a"; anonymous]) cpu eq_refl)).
Defined.

(** C7, as stated, fails: a sub-batch of two resource groups, the first
    with no scope and the second with one scope of no metric, has resource
    groups and a scope group and no metric entry, and fails with the error of
    the scope check, not with that of the metric check, under either routing
    key. *)
Lemma zero_metrics_scope_error :
  let md := batch [ noScopes;
                    {| Resource := {| Attributes := [] |};
                       ScopeMetrics := [ {| Metrics := [] |} ] |} ] in
  length (ResourceMetrics md) = 2 ∧
  length (scopeGroups md) = 1 ∧
  length (metricEntries md) = 0 ∧
  routingIdentifiersFromMetrics md traceIDRouting = inr errEmptyScopeMetrics ∧
  routingIdentifiersFromMetrics md svcRouting = inr errEmptyScopeMetrics ∧
  routingIdentifiersFromMetrics md traceIDRouting ≠ inr errEmptyMetrics ∧
  routingIdentifiersFromMetrics md svcRouting ≠ inr errEmptyMetrics.
Proof. by vm_compute. Qed.

(** C7, amended, on three sub-batches: none has a first metric, each for its
    own reason, and none reaches the load balancer. *)
Lemma emptiness_checks_in_order_example :
  consumeMetric' (exporterWith svcRouting) (batch []) 0%Z =
    (Some errEmptyResourceMetrics, 0%Z, []) ∧
  consumeMetric' (exporterWith traceIDRouting) (batch [noScopes; service "a"]) 0%Z =
    (Some errEmptyScopeMetrics, 0%Z, []) ∧
  consumeMetric' (exporterWith svcRouting) (batch [emptyFirstScope]) 0%Z =
    (Some errEmptyMetrics, 0%Z, []) ∧
  (metricEntries (batch [ {| Resource := {| Attributes := [] |};
                             ScopeMetrics := [ {| Metrics := [] |} ] |};
                          noScopes ]) = [] ∧
   routingIdentifiersFromMetrics
     (batch [ {| Resource := {| Attributes := [] |};
                 ScopeMetrics := [ {| Metrics := [] |} ] |};
              noScopes ]) svcRouting = inr errEmptyMetrics).
Proof.
  split_and!.
  - pose proof (emptiness_checks_in_order lb_Endpoint lb_Exporter
                  te_ConsumeMetrics clock rangeOrder (exporterWith svcRouting)
                  (batch []) 0%Z)
      as (_ & Hr & _ & _ & _ & _ & Hd).
    apply Hd, Hr. reflexivity.
  - pose proof (emptiness_checks_in_order lb_Endpoint lb_Exporter
                  te_ConsumeMetrics clock rangeOrder
                  (exporterWith traceIDRouting)
                  (batch [noScopes; service "a"]) 0%Z)
      as (_ & _ & Hs & _ & _ & _ & Hd).
    apply Hd. eapply Hs; reflexivity.
  - pose proof (emptiness_checks_in_order lb_Endpoint lb_Exporter
                  te_ConsumeMetrics clock rangeOrder (exporterWith svcRouting)
                  (batch [emptyFirstScope]) 0%Z)
      as (_ & _ & _ & _ & Hm & _ & Hd).
    apply Hd. eapply Hm; reflexivity.
  - reflexivity.
  - pose proof (emptiness_checks_in_order lb_Endpoint lb_Exporter
                  te_ConsumeMetrics clock rangeOrder (exporterWith svcRouting)
                  (batch [ {| Resource := {| Attributes := [] |};
                              ScopeMetrics := [ {| Metrics := [] |} ] |};
                           noScopes ]) 0%Z)
      as (_ & _ & _ & _ & _ & Hz & _).
    eapply Hz; [reflexivity|done|reflexivity].
Defined.

(** C8, as stated, fails: with no resolver configured the load balancer
    cannot be built, and the construction fails with the error of the load
    balancer, which does not name the routing key ["bogus"]; likewise the
    routing key ["service"] gives no exporter then. *)
Lemma newMetricsExporter_load_balancer_first :
  newMetricsExporter newLoadBalancer tt {| RoutingKey := "bogus"; settings := false |} =
    inr (errorString "no resolvers specified") ∧
  newMetricsExporter newLoadBalancer tt {| RoutingKey := "bogus"; settings := false |} ≠
    inr (errUnsupportedRoutingKey "bogus") ∧
  newMetricsExporter newLoadBalancer tt {| RoutingKey := "service"; settings := false |} =
    inr (errorString "no resolvers specified").
Proof. by vm_compute. Qed.

(** C8, amended, on four configurations with a resolver. *)
Lemma newMetricsExporter_routing_key_example :
  newMetricsExporter newLoadBalancer tt {| RoutingKey := "service"; settings := true |} =
    inl (exporterWith svcRouting) ∧
  newMetricsExporter newLoadBalancer tt {| RoutingKey := ""; settings := true |} =
    inl (exporterWith traceIDRouting) ∧
  newMetricsExporter newLoadBalancer tt {| RoutingKey := "_metric_ID"; settings := true |} =
    inl (exporterWith traceIDRouting) ∧
  newMetricsExporter newLoadBalancer tt {| RoutingKey := "bogus"; settings := true |} =
    inr (errorString "unsupported routing_key: bogus").
Proof.
  split_and!.
  - apply (proj1 (newMetricsExporter_routing_key newLoadBalancer tt
                    {| RoutingKey := "service"; settings := true |}) tt eq_refl).
    reflexivity.
  - apply (proj1 (newMetricsExporter_routing_key newLoadBalancer tt
                    {| RoutingKey := ""; settings := true |}) tt eq_refl).
    by left.
  - apply (proj1 (newMetricsExporter_routing_key newLoadBalancer tt
                    {| RoutingKey := "_metric_ID"; settings := true |}) tt eq_refl).
    by right.
  - apply (proj1 (newMetricsExporter_routing_key newLoadBalancer tt
                    {| RoutingKey := "bogus"; settings := true |}) tt eq_refl).
    apply (bool_decide_unpack _). by vm_compute.
Defined.

(** C9 on the sub-batch of ["a"] and ["b"]: two forward calls, one refused,
    and two samples, the first with the success tag false. *)
Example one_sample_per_forward_example :
  samples (events (consumeMetric' (exporterWith svcRouting)
                     (batch [service "a"; service "b"]) 0%Z)) =
    [("backend-a", false); ("backend-b", true)].
Proof. rewrite two_services_log. reflexivity. Qed.

(** C10, as stated, fails: the first resource group has a scope with a
    metric, its second scope, and the emptiness check of the metrics fails,
    because the first scope has none. *)
Lemma first_scope_only :
  (∃ s, s ∈ ScopeMetrics emptyFirstScope ∧ Metrics s ≠ []) ∧
  routingIdentifiersFromMetrics (batch [emptyFirstScope]) traceIDRouting =
    inr errEmptyMetrics ∧
  consumeMetric' (exporterWith traceIDRouting) (batch [emptyFirstScope]) 0%Z =
    (Some errEmptyMetrics, 0%Z, []).
Proof.
  split; [|done].
  exists {| Metrics := [cpu] |}. split; [|done].
  apply elem_of_cons. right. apply elem_of_cons. by left.
Qed.

(** C10, amended, on a sub-batch whose second resource group has no scope
    and whose first has an empty second scope. *)
Lemma first_group_checks_example :
  let md := batch [ {| Resource := {| Attributes := [] |};
                       ScopeMetrics := [ {| Metrics := [mem; cpu] |};
                                         {| Metrics := [] |} ] |};
                    noScopes ] in
  routingIdentifiersFromMetrics md traceIDRouting = inl {[ "mem" := true ]} ∧
  ∃ endpoint l,
    events (consumeMetric' (exporterWith traceIDRouting) md 0%Z) =
      EvEndpoint "mem" endpoint :: l.
Proof.
  intros md.
  pose proof (first_group_checks lb_Endpoint lb_Exporter te_ConsumeMetrics
                clock rangeOrder Fixture_rangeOrder_keys (exporterWith traceIDRouting)
                md 0%Z _ _ _ _ _ _ eq_refl eq_refl eq_refl)
    as (_ & Hids & _ & Hgo).
  split; [exact Hids|exact (Hgo eq_refl)].
Defined.

(** C4. A [ConsumeMetrics] call is to register on the wait group, so that
    [Shutdown] does not return while it is in flight. On a payload of the two
    services ["b"] and ["c"]: the call has dispatched the first sub-batch and
    still holds the second when [Shutdown] is called; [Shutdown] sets the stop
    flag, finds the counter of the wait group at zero and returns, with no
    call on the load balancer; the sub-batch of ["c"] is forwarded after
    that. *)
Lemma Shutdown_returns_during_ConsumeMetrics :
  let s0 := {| exporter := exporterWith svcRouting; theWorld := 0%Z;
               theLog := [];
               consumer := CEntry (batch [service "b"; service "c"]);
               closer := SEntry |} in
  ∃ s1 s2,
    run' [TConsume; TConsume; TShutdown; TShutdown] s0 = Some s1 ∧
    closer s1 = SReturned None ∧
    stopped (exporter s1) = true ∧
    shutdownWg (exporter s1) = 0%Z ∧
    inFlight (consumer s1) ∧
    consumer s1 = CRange None [batch [service "c"]] ∧
    forwards (theLog s1) = [("backend-b", true)] ∧
    run' [TConsume; TConsume] s1 = Some s2 ∧
    consumer s2 = CReturned None ∧
    forwards (theLog s2) = [("backend-b", true); ("backend-c", true)].
Proof.
  intros s0. eexists _, _.
  split; [reflexivity|]. split_and!; reflexivity || exact I.
Qed.

(** The two identifiers of the sub-batch of ["a"] and ["b"] are each taken
    up, forwarded and sampled once. *)
Lemma consumeMetric_each_identifier_once_example :
  let x := consumeMetric' (exporterWith svcRouting)
             (batch [service "a"; service "b"]) 0%Z in
  visited (events x) ≡ₚ elements (dom (gset_to_gmap true (list_to_set ["a"; "b"]))) ∧
  length (forwards (events x)) = size (dom (gset_to_gmap true (list_to_set ["a"; "b"]))) ∧
  length (samples (events x)) = size (dom (gset_to_gmap true (list_to_set ["a"; "b"]))).
Proof.
  intros x.
  apply (consumeMetric_each_identifier_once lb_Endpoint lb_Exporter
           te_ConsumeMetrics clock rangeOrder Fixture_rangeOrder_keys
           (exporterWith svcRouting) (batch [service "a"; service "b"]) 0%Z).
  - by vm_compute.
  - rewrite two_services_log. by repeat constructor.
Defined.

(** [Shutdown] called after the first sub-batch of a payload was dispatched:
    it returns, and the [ConsumeMetrics] call still holds its second
    sub-batch. *)
Lemma Shutdown_returns_example :
  let s := {| exporter := exporterWith svcRouting; theWorld := 2500000%Z;
              theLog := [];
              consumer := CRange None [batch [service "c"]];
              closer := SEntry |} in
  ∃ s', run' [TShutdown; TShutdown] s = Some s' ∧
        closer s' = SReturned None ∧ stopped (exporter s') = true ∧
        consumer s' = consumer s ∧ theWorld s' = theWorld s ∧
        theLog s' = theLog s.
Proof.
  intros s.
  exact (Shutdown_returns lb_Endpoint lb_Exporter te_ConsumeMetrics clock
           rangeOrder SplitMetrics s eq_refl eq_refl).
Defined.

(** The counter of the wait group after a call of each kind has run. *)
Lemma run_shutdownWg_example :
  ∃ s',
    run' [TConsume; TShutdown; TConsume; TShutdown; TConsume]
      {| exporter := exporterWith svcRouting; theWorld := 0%Z; theLog := [];
         consumer := CEntry (batch [service "b"]); closer := SEntry |} = Some s' ∧
    shutdownWg (exporter s') = 0%Z.
Proof.
  destruct (run' [TConsume; TShutdown; TConsume; TShutdown; TConsume]
              {| exporter := exporterWith svcRouting; theWorld := 0%Z;
                 theLog := []; consumer := CEntry (batch [service "b"]);
                 closer := SEntry |}) as [s'|] eqn:Hrun;
    [|by vm_compute in Hrun].
  exists s'. split; [reflexivity|].
  exact (run_shutdownWg lb_Endpoint lb_Exporter te_ConsumeMetrics clock
           rangeOrder SplitMetrics _ _ _ Hrun).
Defined.

(** * Further properties on the concrete world *)

(** Three resource groups of two services give two identifiers. *)
Lemma routingIdentifiers_nonempty_example :
  let md := batch [service "a"; service "b"; service "a"] in
  let ids : gmap string bool := gset_to_gmap true (list_to_set ["a"; "b"; "a"]) in
  routingIdentifiersFromMetrics md svcRouting = inl ids ∧
  ids ≠ ∅ ∧ (∀ k v, ids !! k = Some v → v = true) ∧
  1 ≤ size ids ≤ length (ResourceMetrics md) ∧
  (svcRouting ≠ svcRouting → size ids = 1).
Proof.
  intros md ids.
  assert (routingIdentifiersFromMetrics md svcRouting = inl ids) as Hx
    by (by vm_compute).
  split; [exact Hx|]. exact (routingIdentifiers_nonempty md svcRouting ids Hx).
Defined.

(** The services ["a"] and ["b"] in either order, with different scopes. *)
Lemma routingIdentifiers_service_order_example :
  routingIdentifiersFromMetrics (batch [service "a"; service "b"]) svcRouting =
  routingIdentifiersFromMetrics
    (batch [ {| Resource := Resource (service "b");
                ScopeMetrics := [ {| Metrics := [mem] |}; {| Metrics := [] |} ] |};
             service "a" ]) svcRouting.
Proof.
  apply routingIdentifiers_service_order.
  - by eexists.
  - by eexists.
  - apply Permutation_swap.
Defined.

(** The sub-batch of the services ["b"] and ["c"], whose backends accept:
    [consumeMetric] returns [nil], and both were taken up. *)
Lemma consumeMetric_nil_example :
  let x := consumeMetric' (exporterWith svcRouting)
             (batch [service "b"; service "c"]) 0%Z in
  result x = None ∧
  ∃ ids,
    routingIdentifiersFromMetrics (batch [service "b"; service "c"]) svcRouting
      = inl ids ∧
    Forall (λ ev, resolutionFailure ev = None) (events x) ∧
    visited (events x) ≡ₚ elements (dom ids) ∧
    (∀ endpoint ok, last (forwards (events x)) = Some (endpoint, ok) → ok = true).
Proof.
  intros x.
  assert (result x = None) as Hnil by (by vm_compute).
  split; [exact Hnil|].
  exact (consumeMetric_nil lb_Endpoint lb_Exporter te_ConsumeMetrics clock
           rangeOrder Fixture_rangeOrder_keys (exporterWith svcRouting)
           (batch [service "b"; service "c"]) 0%Z Hnil).
Defined.

(** Of the three services ["b"], ["gone"] and ["z"] only ["gone"] is taken
    up, once. *)
Lemma consumeMetric_visits_identifiers_only_example :
  let md := batch [service "b"; service "gone"; service "z"] in
  let ids : gmap string bool :=
    gset_to_gmap true (list_to_set ["b"; "gone"; "z"]) in
  let x := consumeMetric' (exporterWith svcRouting) md 0%Z in
  routingIdentifiersFromMetrics md svcRouting = inl ids ∧
  NoDup (visited (events x)) ∧
  (∀ rid, rid ∈ visited (events x) → rid ∈ dom ids) ∧
  length (samples (events x)) = length (forwards (events x)) ∧
  length (forwards (events x)) ≤ length (visited (events x)) ∧
  length (visited (events x)) ≤ size (dom ids).
Proof.
  intros md ids x.
  assert (routingIdentifiersFromMetrics md svcRouting = inl ids) as Hx
    by (by vm_compute).
  split; [exact Hx|].
  exact (consumeMetric_visits_identifiers_only lb_Endpoint lb_Exporter
           te_ConsumeMetrics clock rangeOrder Fixture_rangeOrder_keys
           (exporterWith svcRouting) md 0%Z ids Hx).
Defined.

(** The clock of the concrete world only advances: the two samples of the
    sub-batch of ["a"] and ["b"] are not negative. *)
Lemma samples_not_negative_example :
  (∀ te md' w', (clock w' ≤ clock (te_ConsumeMetrics te md' w').2)%Z) ∧
  Forall (λ millis, (0 ≤ millis)%Z)
    (sampleValues (events (consumeMetric' (exporterWith svcRouting)
                             (batch [service "a"; service "b"]) 0%Z))).
Proof.
  assert (∀ te md' w', (clock w' ≤ clock (te_ConsumeMetrics te md' w').2)%Z)
    as Hclock by (intros te md' w'; unfold clock; simpl; lia).
  split; [exact Hclock|].
  exact (samples_not_negative lb_Endpoint lb_Exporter te_ConsumeMetrics clock
           rangeOrder (exporterWith svcRouting)
           (batch [service "a"; service "b"]) 0%Z Hclock).
Defined.

(** A payload dispatched by an exporter that was shut down. *)
Lemma ConsumeMetrics_after_Shutdown_example :
  let e' := {| loadBalancer := tt; routingKey_ := svcRouting; stopped := true;
               shutdownWg := 0 |} in
  Shutdown (exporterWith svcRouting) = Some (e', None) ∧
  stopped e' = true ∧
  ConsumeMetrics' e' (batch [service "a"; service "b"]) 0%Z =
    ConsumeMetrics' (exporterWith svcRouting) (batch [service "a"; service "b"]) 0%Z ∧
  Start lb_Start e' 0%Z = Start lb_Start (exporterWith svcRouting) 0%Z.
Proof.
  intros e'.
  assert (Shutdown (exporterWith svcRouting) = Some (e', None)) as Hs
    by reflexivity.
  split; [exact Hs|].
  exact (ConsumeMetrics_after_Shutdown lb_Endpoint lb_Exporter
           te_ConsumeMetrics clock rangeOrder SplitMetrics lb_Start
           (exporterWith svcRouting) e' None
           (batch [service "a"; service "b"]) 0%Z Hs).
Defined.


(** The error returned for the services ["b"], ["gone"] and ["z"] is the
    last error met, that of the missing exporter; with ["b"] and ["c"] no
    error is met and [nil] is returned. *)
Lemma consumeMetric_error_was_met_example :
  let x := consumeMetric' (exporterWith svcRouting)
             (batch [service "b"; service "gone"; service "z"]) 0%Z in
  let y := consumeMetric' (exporterWith svcRouting)
             (batch [service "b"; service "c"]) 0%Z in
  (result x = Some (errorString "couldn't find the exporter for the endpoint") ∧
   (routingIdentifiersFromMetrics
      (batch [service "b"; service "gone"; service "z"]) svcRouting
    = inr (errorString "couldn't find the exporter for the endpoint") ∨
    last (errorsMet (events x))
    = Some (errorString "couldn't find the exporter for the endpoint"))) ∧
  (errorsMet (events y) = [] ∧ result y = None).
Proof.
  intros x y. split.
  - assert (result x
            = Some (errorString "couldn't find the exporter for the endpoint"))
      as Hret by (by vm_compute).
    split; [exact Hret|].
    exact (proj1 (consumeMetric_error_was_met lb_Endpoint lb_Exporter
                    te_ConsumeMetrics clock rangeOrder
                    (exporterWith svcRouting)
                    (batch [service "b"; service "gone"; service "z"]) 0%Z)
             _ Hret).
  - assert (errorsMet (events y) = []) as Hnone by (by vm_compute).
    split; [exact Hnone|].
    refine (proj2 (consumeMetric_error_was_met lb_Endpoint lb_Exporter
                     te_ConsumeMetrics clock rangeOrder
                     (exporterWith svcRouting)
                     (batch [service "b"; service "c"]) 0%Z)
              _ _ Hnone).
    + by eexists.
    + intros _. repeat constructor; by eexists.
Defined.

(** The empty payload, and a payload of one resource group whose backend
    refuses it. *)
Lemma ConsumeMetrics_few_sub_batches_example :
  ConsumeMetrics' (exporterWith svcRouting) (batch []) 0%Z = (None, 0%Z, []) ∧
  ConsumeMetrics' (exporterWith svcRouting) (batch [service "a"]) 0%Z =
    consumeMetric' (exporterWith svcRouting) (batch [service "a"]) 0%Z ∧
  result (ConsumeMetrics' (exporterWith svcRouting) (batch [service "a"]) 0%Z) =
    Some (errorString "connection refused").
Proof.
  split_and!.
  - exact (proj1 (ConsumeMetrics_few_sub_batches lb_Endpoint lb_Exporter
                    te_ConsumeMetrics clock rangeOrder SplitMetrics
                    (exporterWith svcRouting) (batch []) 0%Z) eq_refl).
  - exact (proj2 (ConsumeMetrics_few_sub_batches lb_Endpoint lb_Exporter
                    te_ConsumeMetrics clock rangeOrder SplitMetrics
                    (exporterWith svcRouting) (batch [service "a"]) 0%Z)
             _ eq_refl).
  - by vm_compute.
Defined.
